(** * Semantic Answer Similarity: a shallow embedding of [simple_llms_eval/sas.py]

    The metric has one operation, [SemanticAnswerSimilarity._compute].  It
    talks to three external collaborators (the model-configuration loader, the
    cross-encoder inference engine and the host's device query), builds a
    fresh list of pairs from its two argument lists and optionally averages
    the scores.

    The embedding keeps the Python store explicit: list objects live in a
    heap, [predictions] and [references] are references into it, and every
    call to a collaborator and every [print] is recorded in a trace.  Scores
    are Python floats: binary64 numbers, the two infinities and [nan], with
    every addition and division rounded to the nearest binary64 number. *)

From stdpp Require Import base numbers option list gmap strings.
From Stdlib Require Import QArith Qcanon Qround Qpower Qabs Lqa.

Local Open Scope Z_scope.

(** ** Python values, the store and the trace *)

Definition loc := positive.

(** The values this function handles: strings, and references to list objects. *)
Inductive pyval :=
  | VStr (s : string)
  | VRef (l : loc).

Global Instance pyval_eq_dec : EqDecision pyval.
Proof. solve_decision. Defined.

(** [float]: a finite number, an infinity, or [nan].  A finite float is given
    by its value; the two zeros, which compare equal, are one value. *)
Inductive pyfloat :=
  | Fin (q : Qc)
  | PInf
  | NInf
  | NaN.

(** What the call gives back to its caller. *)
Inductive retval :=
  | RNone                                                (* a bare [return] *)
  | RScores (scores : list pyfloat)                           (* [return scores] *)
  | RScoresAvg (scores : list pyfloat) (avg_score : pyfloat). (* [return scores, avg_score] *)

Inductive exn :=
  | UnboundLocalError (name : string).

(** Calls that leave the function, in the order they happen. *)
Inductive event :=
  | EvFromPretrained (model_name : string)
  | EvPrint (line : string)
  | EvCudaIsAvailable
  | EvCrossEncoder (model_name device : string)
  | EvPredict (model_name device : string) (pairs : list (list string)) (batch_size : Z).

Global Instance event_eq_dec : EqDecision event.
Proof. solve_decision. Defined.

Record state := State {
  heap : gmap loc (list pyval);
  trace : list event
}.

(** The outcome of running a piece of code: a value, a raised exception, a
    store the code cannot run on (dangling reference, an object of the wrong
    shape), or an exhausted iteration budget. *)
Inductive result (A : Type) :=
  | Val (a : A)
  | Exc (e : exn)
  | Wrong
  | Timeout.
Arguments Val {A} a.
Arguments Exc {A} e.
Arguments Wrong {A}.
Arguments Timeout {A}.

Definition M (A : Type) : Type := state → result A * state.

Global Instance M_ret : MRet M := λ A a s, (Val a, s).

Global Instance M_bind : MBind M := λ A B k m s,
  match m s with
  | (Val a, s') => k a s'
  | (Exc e, s') => (Exc e, s')
  | (Wrong, s') => (Wrong, s')
  | (Timeout, s') => (Timeout, s')
  end.

Definition raise {A} (e : exn) : M A := λ s, (Exc e, s).
Definition timeout {A} : M A := λ s, (Timeout, s).

Definition emit (e : event) : M unit := λ s,
  (Val tt, State (heap s) (trace s ++ [e])).

(** A list display or [[]]: a new object at an unused address. *)
Definition alloc (o : list pyval) : M loc := λ s,
  let l := fresh (dom (heap s)) in
  (Val l, State (<[l:=o]> (heap s)) (trace s)).

Definition load (l : loc) : M (list pyval) := λ s,
  match heap s !! l with
  | Some o => (Val o, s)
  | None => (Wrong, s)
  end.

(** [lst.append(v)] *)
Definition append (l : loc) (v : pyval) : M unit := λ s,
  match heap s !! l with
  | Some o => (Val tt, State (<[l:=o ++ [v]]> (heap s)) (trace s))
  | None => (Wrong, s)
  end.

(** Reading a local variable that may not have been assigned. *)
Definition read_local {A} (name : string) (v : option A) : M A :=
  match v with
  | Some a => mret a
  | None => raise (UnboundLocalError name)
  end.

(** ** Strings *)

(** [s.endswith(suffix)] *)
Definition endswith (s suffix : string) : bool :=
  (String.length suffix <=? String.length s)%nat &&
  String.eqb
    (String.substring (String.length s - String.length suffix) (String.length suffix) s)
    suffix.

(** ** The collaborators *)

(** The part of a model configuration the function reads. [architectures]
    is [None] when the configuration does not declare it. *)
Record PretrainedConfig := {
  architectures : option (list string)
}.

(** Truth value of [model_config.architectures]: [None] and the empty list
    are false. *)
Definition truthy {A} (o : option (list A)) : bool :=
  match o with
  | None | Some [] => false
  | Some (_ :: _) => true
  end.

(** ** binary64 arithmetic *)

(** Exponent of the smallest positive binary64 number, [2^-1074]. *)
Definition emin : Z := -1074.

Definition pow2 (e : Z) : Q := (2 ^ e)%Q.

(** [floor (log2 x)] for a positive [x]. *)
Definition ilog2 (x : Q) : Z :=
  let k := Z.log2 (Qnum x) - Z.log2 (Zpos (Qden x)) in
  if Qle_bool (pow2 k) x then k else k - 1.

(** Exponent of the unit in the last place at [x]: 53 significant bits, and
    never below [emin]. *)
Definition exq (x : Q) : Z := Z.max (ilog2 (Qabs x) - 52) emin.

(** Nearest integer, ties to the even one. *)
Definition rne (t : Q) : Z :=
  let f := Qfloor t in
  match Qcompare (t - inject_Z f) (1 # 2) with
  | Lt => f
  | Gt => f + 1
  | Eq => if Z.even f then f else f + 1
  end.

(** Nearest multiple of the unit in the last place (exponent not yet bounded
    above). *)
Definition rndq (x : Q) : Q :=
  if Qeq_bool x 0 then 0%Q
  else (inject_Z (rne (x / pow2 (exq x))) * pow2 (exq x))%Q.

(** Round to binary64, nearest-even; what rounds to [2^1024] or beyond
    overflows to an infinity. *)
Definition round64 (x : Q) : pyfloat :=
  let r := rndq x in
  if Qle_bool (pow2 1024) (Qabs r)
  then (if Qle_bool 0 r then PInf else NInf)
  else Fin (Q2Qc r).

(** [a + b] *)
Definition fadd (a b : pyfloat) : pyfloat :=
  match a, b with
  | NaN, _ | _, NaN => NaN
  | PInf, NInf | NInf, PInf => NaN
  | PInf, _ | _, PInf => PInf
  | NInf, _ | _, NInf => NInf
  | Fin x, Fin y => round64 (x + y)%Q
  end.

(** [a / b] *)
Definition fdiv (a b : pyfloat) : pyfloat :=
  match a, b with
  | NaN, _ | _, NaN => NaN
  | (PInf | NInf), (PInf | NInf) => NaN
  | PInf, Fin y => if Qle_bool 0 y then PInf else NInf
  | NInf, Fin y => if Qle_bool 0 y then NInf else PInf
  | Fin _, (PInf | NInf) => Fin (Q2Qc 0)
  | Fin x, Fin y =>
      if Qeq_bool y 0
      then (if Qeq_bool x 0 then NaN else if Qle_bool 0 x then PInf else NInf)
      else round64 (x / y)%Q
  end.

(** An integer count as a float. *)
Definition float_of_nat (n : nat) : pyfloat := round64 (inject_Z (Z.of_nat n)).

(** The numbers [M * 2^E] with a 53-bit [M] and [E] not below [emin]. *)
Definition representable (f : Q) : Prop :=
  ∃ M E : Z, Z.abs M < 2 ^ 53 ∧ emin ≤ E ∧ (f == inject_Z M * pow2 E)%Q.

(** The finite binary64 numbers. *)
Definition binary64 (f : Q) : Prop :=
  representable f ∧ (Qabs f < pow2 1024)%Q.

(** The finite binary32 numbers, which are what a float32 model's scores are
    after [tolist()]: a 24-bit [M] and an exponent between -149 and 104. *)
Definition binary32 (f : Q) : Prop :=
  ∃ M E : Z, Z.abs M < 2 ^ 24 ∧ -149 ≤ E ≤ 104 ∧ (f == inject_Z M * pow2 E)%Q.

(** The value of a finite float. *)
Definition fin_value (x : pyfloat) : Qc :=
  match x with
  | Fin q => q
  | _ => Q2Qc 0
  end.

Definition sumQ (l : list Q) : Q := foldr Qplus 0%Q l.

(** ** numpy

    [np.mean] adds the scores with binary64 additions and divides the sum by
    their number.  Which scores are added to which is the library's choice
    (it sums pairwise in blocks, and left to right on short inputs): a
    [plan] is such a bracketing, its leaves positions in the list.  An
    accumulator's initial zero is left out, since adding zero to a binary64
    number gives that number. *)
Inductive plan :=
  | PLeaf (i : nat)
  | PAdd (p q : plan).


Fixpoint eval_plan (p : plan) (l : list pyfloat) : pyfloat :=
  match p with
  | PLeaf i => default (Fin (Q2Qc 0)) (l !! i)
  | PAdd p q => fadd (eval_plan p l) (eval_plan q l)
  end.

(** The left-to-right plan for [n + 1] numbers. *)
Fixpoint plan_in_order (n : nat) : plan :=
  match n with
  | O => PLeaf 0
  | S n' => PAdd (plan_in_order n') (PLeaf n)
  end.

(** The world outside the function.  [engine_predict name device pairs
    batch_size] is [CrossEncoder(name, device=device).predict(pairs,
    batch_size=batch_size).tolist()]; [sum_plan n] is the bracketing numpy
    uses to add [n] numbers.  Failures of the collaborators themselves (an
    unknown model, a download error) are not part of this function and are
    not modelled. *)
Record World := {
  from_pretrained : string → PretrainedConfig;
  cuda_is_available : bool;
  engine_predict : string → string → list (list string) → Z → list pyfloat;
  sum_plan : nat → plan
}.

(** A loaded [CrossEncoder]. *)
Record CrossEncoderModel := {
  ce_model_name : string;
  ce_device : string
}.

(** [np.sum(scores)] for at least one score. *)
Definition np_sum (W : World) (scores : list pyfloat) : pyfloat :=
  eval_plan (sum_plan W (length scores)) scores.

(** [np.mean(scores)]: the sum over the count; for no score that is
    [0.0 / 0], which is [nan]. *)
Definition np_mean (W : World) (scores : list pyfloat) : pyfloat :=
  match scores with
  | [] => NaN
  | _ :: _ => fdiv (np_sum W scores) (float_of_nat (length scores))
  end.


(** [float(x)] of a numpy scalar. *)
Definition float (x : pyfloat) : pyfloat := x.

(** ** The metric *)

Definition default_model_name : string := "cross-encoder/stsb-roberta-large".
Definition default_return_average : bool := false.
Definition default_batch_size : Z := 64.

Definition marker : string := "ForSequenceClassification".

Definition invalid_message (model_name : string) : string :=
  "Invalid model architecture, " +:+ model_name +:+ " is not a cross-encoder.".

(** What the engine sees when it is handed the object at [pairs]: a list of
    lists of strings. *)
Definition as_str (v : pyval) : option string :=
  match v with
  | VStr s => Some s
  | VRef _ => None
  end.

Definition resolve_item (h : gmap loc (list pyval)) (v : pyval) : option (list string) :=
  match v with
  | VRef l => o ← h !! l; mapM as_str o
  | VStr _ => None
  end.

Definition resolve_pairs (h : gmap loc (list pyval)) (pairs : loc) : option (list (list string)) :=
  o ← h !! pairs; mapM (resolve_item h) o.

(** The local variable [is_cross_encoder] after
    [if model_config.architectures: is_cross_encoder = any(...)]: it is
    assigned only when the list is there and not empty. *)
Definition is_cross_encoder_of (model_config : PretrainedConfig) : option bool :=
  if truthy (architectures model_config)
  then Some (existsb (λ architectures, endswith architectures marker)
               (default [] (architectures model_config)))
  else None.

(** [pairs.append([prediction, reference])] *)
Definition append_pair (pairs : loc) (prediction reference : pyval) : M unit :=
  pair ← alloc [prediction; reference];
  append pairs (VRef pair).

Section SemanticAnswerSimilarity.

Variable W : World.

(** [AutoConfig.from_pretrained(model_name)] *)
Definition AutoConfig_from_pretrained (model_name : string) : M PretrainedConfig :=
  emit (EvFromPretrained model_name) ;;
  mret (from_pretrained W model_name).

(** [torch.cuda.is_available()] *)
Definition torch_cuda_is_available : M bool :=
  emit EvCudaIsAvailable ;;
  mret (cuda_is_available W).

(** [CrossEncoder(model_name, device=device)] *)
Definition CrossEncoder (model_name device : string) : M CrossEncoderModel :=
  emit (EvCrossEncoder model_name device) ;;
  mret {| ce_model_name := model_name; ce_device := device |}.

(** [model.predict(pairs, batch_size=batch_size).tolist()] *)
Definition predict_tolist (model : CrossEncoderModel) (pairs : loc) (batch_size : Z)
  : M (list pyfloat) := λ s,
  match resolve_pairs (heap s) pairs with
  | Some ps =>
      (emit (EvPredict (ce_model_name model) (ce_device model) ps batch_size) ;;
       mret (engine_predict W (ce_model_name model) (ce_device model) ps batch_size)) s
  | None => (Wrong, s)
  end.

Definition print (line : string) : M unit := emit (EvPrint line).

(** [for prediction, reference in zip(predictions, references): body].
    Each round asks the first list for its next element, then the second,
    and stops as soon as one of them has none; [i] is the position both
    list iterators are at.  [fuel] bounds the number of rounds: a loop that
    would need more ends in [Timeout]. *)
Fixpoint for_zip (fuel : nat) (i : nat) (predictions references : loc)
    (body : pyval → pyval → M unit) : M unit :=
  match fuel with
  | O => timeout
  | S fuel' =>
      xs ← load predictions;
      match xs !! i with
      | None => mret tt
      | Some prediction =>
          ys ← load references;
          match ys !! i with
          | None => mret tt
          | Some reference =>
              body prediction reference ;;
              for_zip fuel' (S i) predictions references body
          end
      end
  end.

(** [SemanticAnswerSimilarity._compute].  [predictions] and [references] are
    the addresses of the caller's two list objects; [fuel] is the loop budget
    of [for_zip]. *)
Definition _compute (fuel : nat) (predictions references : loc)
    (model_name : string) (return_average : bool) (batch_size : Z) : M retval :=
  model_config ← AutoConfig_from_pretrained model_name;
  let is_cross_encoder : option bool := is_cross_encoder_of model_config in
  b ← read_local "is_cross_encoder" is_cross_encoder;
  if negb (b : bool) then
    print (invalid_message model_name) ;;
    mret RNone
  else
    cuda ← torch_cuda_is_available;
    let device : string := if (cuda : bool) then "cuda" else "cpu" in
    model ← CrossEncoder model_name device;
    pairs ← alloc [];
    for_zip fuel 0 predictions references (append_pair pairs) ;;
    scores ← predict_tolist model pairs batch_size;
    if return_average then
      let avg_score := float (np_mean W scores) in
      mret (RScoresAvg scores avg_score)
    else
      mret (RScores scores).

End SemanticAnswerSimilarity.

(** ** What the specification says of the inference engine

    The engine is a black box to this function.  The specification describes
    it as giving one numeric score per pair, in input order, with
    [batch_size] a matter of throughput only. *)

(** One score per pair. *)
Definition one_score_per_pair (W : World) : Prop :=
  ∀ model_name device pairs batch_size,
    length (engine_predict W model_name device pairs batch_size) = length pairs.

(** The scores do not depend on how the pairs are batched. *)
Definition batch_invariant (W : World) : Prop :=
  ∀ model_name device pairs batch_size batch_size',
    engine_predict W model_name device pairs batch_size
    = engine_predict W model_name device pairs batch_size'.

(** The engine scores each pair on its own: [score model_name device pair]
    is the engine's score for [pair]. *)
Definition scores_each_pair (W : World)
    (score : string → string → list string → pyfloat) : Prop :=
  ∀ model_name device pairs batch_size,
    engine_predict W model_name device pairs batch_size
    = score model_name device <$> pairs.

(** The scores a returned value carries. *)
Definition returned_scores (v : retval) : option (list pyfloat) :=
  match v with
  | RNone => None
  | RScores scores => Some scores
  | RScoresAvg scores _ => Some scores
  end.

(** The returned value without its average. *)
Definition drop_average (v : retval) : retval :=
  match v with
  | RScoresAvg scores _ => RScores scores
  | _ => v
  end.

Definition result_map {A B} (f : A → B) (r : result A) : result B :=
  match r with
  | Val a => Val (f a)
  | Exc e => Exc e
  | Wrong => Wrong
  | Timeout => Timeout
  end.

(** The device the function picks on a host. *)
Definition selected_device (W : World) : string :=
  if cuda_is_available W then "cuda" else "cpu".

(** The pairs [zip] yields, each as the two-element list the loop appends. *)
Definition pairs_of (ps rs : list string) : list (list string) :=
  zip_with (λ prediction reference, [prediction; reference]) ps rs.

(** The shape of the store while the loop runs: the two argument lists hold
    strings, [pairs] is a different object and holds references [ls] to the
    two-element lists [items] built so far. *)
Record loop_inv (predictions references pairs : loc) (ps rs : list string)
    (h : gmap loc (list pyval)) (ls : list loc) (items : list (list string)) : Prop := {
  inv_predictions : h !! predictions = Some (VStr <$> ps);
  inv_references : h !! references = Some (VStr <$> rs);
  inv_pairs : h !! pairs = Some (VRef <$> ls);
  inv_items : Forall2 (λ l item, l ≠ pairs ∧ h !! l = Some (VStr <$> item)) ls items;
  inv_pairs_predictions : pairs ≠ predictions;
  inv_pairs_references : pairs ≠ references
}.

(** The value [avg] is the arithmetic mean of [scores]: the scores are
    finite and at least one, and [avg] times their number is the sum of their
    values. *)
Definition exact_mean (scores : list pyfloat) (avg : Qc) : Prop :=
  scores ≠ [] ∧
  Forall (λ x, ∃ q, x = Fin q) scores ∧
  (avg * inject_Z (Z.of_nat (length scores))
   == sumQ ((λ x, this (fin_value x)) <$> scores))%Q.

Definition Qc_max (x y : Qc) : Qc := if decide (x < y)%Qc then y else x.


Definition list_max (scores : list Qc) : Qc :=
  match scores with
  | [] => Q2Qc 0
  | x :: rest => foldl Qc_max x rest
  end.

(** ** A stand-in world

    A small executable world: three model names with the architecture lists
    their configurations declare, no accelerator, and an engine that scores
    one pair at a time and really works through the pairs in batches of
    [batch_size]. *)

Module Stub.

Definition config_of (model_name : string) : PretrainedConfig :=
  if String.eqb model_name "cross-encoder/stsb-roberta-large"
  then {| architectures := Some ["RobertaForSequenceClassification"] |}
  else if String.eqb model_name "bert-base-uncased"
  then {| architectures := Some ["BertForMaskedLM"] |}
  else {| architectures := None |}.

Fixpoint common_prefix (a b : string) : nat :=
  match a, b with
  | String x a', String y b' =>
      if Ascii.eqb x y then S (common_prefix a' b') else O
  | _, _ => O
  end.

(** Share of the longer text that the two texts have in common at their start. *)
Definition score (pair : list string) : pyfloat :=
  match pair with
  | [a; b] =>
      fdiv (float_of_nat (common_prefix a b))
        (float_of_nat (String.length a `max` String.length b))
  | _ => Fin (Q2Qc 0)
  end.

(** The pairs, [n] at a time. *)
Fixpoint batches {A} (fuel n : nat) (l : list A) : list (list A) :=
  match fuel, l with
  | _, [] => []
  | O, _ => [l]
  | S fuel', _ => take n l :: batches fuel' n (drop n l)
  end.

Definition predict (model_name device : string) (pairs : list (list string))
    (batch_size : Z) : list pyfloat :=
  let n := Z.to_nat (Z.max 1 batch_size) in
  concat (map (map score) (batches (length pairs) n pairs)).

Definition world : World := {|
  from_pretrained := config_of;
  cuda_is_available := false;
  engine_predict := predict;
  sum_plan := λ n, plan_in_order (pred n)
|}.

Definition predictions : loc := 1%positive.
Definition references : loc := 2%positive.

Definition store (ps rs : list string) : state := {|
  heap := <[references := VStr <$> rs]> (<[predictions := VStr <$> ps]> ∅);
  trace := []
|}.

Definition sample_predictions : list string :=
  ["El sol esta en el cielo."; "Las bicicletas son buenas para el ambiente.";
   "El cafe es adictivo."].

Definition sample_references : list string :=
  ["El sol brilla en el cielo."; "Las bicicletas son ecologicas.";
   "El cafe es una bebida popular."].

Definition sample_store : state := store sample_predictions sample_references.

End Stub.


(** * Properties *)

(** ** The store only grows *)

Ltac run := unfold mbind, M_bind, mret, M_ret; simpl.

Lemma alloc_extends (h0 : gmap loc (list pyval)) o s :
  h0 ⊆ heap s → h0 ⊆ heap (alloc o s).2.
Proof.
  intros Hsub. simpl. apply insert_subseteq_r; [|done].
  eapply lookup_weaken_None; [|exact Hsub].
  apply not_elem_of_dom, is_fresh.
Qed.

Lemma append_pair_extends (h0 : gmap loc (list pyval)) pairs x y s :
  h0 !! pairs = None → h0 ⊆ heap s → h0 ⊆ heap (append_pair pairs x y s).2.
Proof.
  intros Hp Hsub. unfold append_pair. run. unfold append. simpl.
  pose proof (alloc_extends h0 [x; y] s Hsub) as Hsub'. simpl in Hsub'.
  destruct (<[_:=_]> (heap s) !! pairs); simpl; [|done].
  by apply insert_subseteq_r.
Qed.

Section Frame.

Variable W : World.

Lemma for_zip_extends (h0 : gmap loc (list pyval)) predictions references pairs fuel :
  ∀ i s, h0 !! pairs = None → h0 ⊆ heap s →
    h0 ⊆ heap (for_zip fuel i predictions references (append_pair pairs) s).2.
Proof.
  induction fuel as [|fuel IH]; intros i s Hp Hsub; [done|].
  simpl. run. unfold load.
  destruct (heap s !! predictions) as [xs|]; simpl; [|done].
  destruct (xs !! i) as [x|]; simpl; [|done].
  destruct (heap s !! references) as [ys|]; simpl; [|done].
  destruct (ys !! i) as [y|]; simpl; [|done].
  pose proof (append_pair_extends h0 pairs x y s Hp Hsub) as Hext.
  destruct (append_pair pairs x y s) as [[[]| | |] s1]; simpl in *; try done.
  by apply IH.
Qed.

(** Every object of the store the call starts in is still there, unchanged,
    when it ends, whatever way it ends. *)
Lemma _compute_extends fuel predictions references model_name return_average batch_size s :
  heap s ⊆ heap (_compute W fuel predictions references model_name
                   return_average batch_size s).2.
Proof.
  unfold _compute, AutoConfig_from_pretrained. run.
  destruct (is_cross_encoder_of _) as [[|]|]; simpl; [| done | done].
  set (s1 := State _ _).
  assert (Hfresh : heap s !! fresh (dom (heap s)) = None)
    by apply not_elem_of_dom, is_fresh.
  pose proof (for_zip_extends (heap s) predictions references
                (fresh (dom (heap s))) fuel 0 s1 Hfresh) as Hext.
  destruct (for_zip _ _ _ _ _ s1) as [[[]| | |] s2]; simpl in *;
    try (apply Hext; by apply insert_subseteq).
  unfold predict_tolist.
  destruct (resolve_pairs _ _); simpl; run;
    destruct return_average; simpl; apply Hext; by apply insert_subseteq.
Qed.

End Frame.

(** ** What the loop builds *)


Lemma pairs_of_length ps rs : length (pairs_of ps rs) = (length ps `min` length rs)%nat.
Proof. apply length_zip_with. Qed.

Lemma pairs_of_lookup ps rs i p r :
  ps !! i = Some p → rs !! i = Some r → pairs_of ps rs !! i = Some [p; r].
Proof.
  intros Hp Hr. unfold pairs_of. rewrite lookup_zip_with, Hp. simpl. by rewrite Hr.
Qed.

Lemma pairs_of_lookup_None_l ps rs i : ps !! i = None → drop i (pairs_of ps rs) = [].
Proof.
  intros H%lookup_ge_None. apply drop_ge. rewrite pairs_of_length. lia.
Qed.

Lemma pairs_of_lookup_None_r ps rs i : rs !! i = None → drop i (pairs_of ps rs) = [].
Proof.
  intros H%lookup_ge_None. apply drop_ge. rewrite pairs_of_length. lia.
Qed.

Lemma pairs_of_shorter ps rs :
  let n := (length ps `min` length rs)%nat in
  pairs_of (take n ps) (take n rs) = pairs_of ps rs.
Proof.
  intros n. unfold pairs_of. rewrite <- zip_with_take.
  apply take_ge. rewrite length_zip_with. lia.
Qed.

Lemma mapM_as_str (l : list string) : mapM as_str (VStr <$> l) = Some l.
Proof. apply mapM_Some. induction l; constructor; done. Qed.


Lemma loop_inv_resolve predictions references pairs ps rs h ls items :
  loop_inv predictions references pairs ps rs h ls items →
  resolve_pairs h pairs = Some items.
Proof.
  intros [_ _ Hpairs Hitems _ _]. unfold resolve_pairs. rewrite Hpairs. simpl.
  apply mapM_Some. apply Forall2_fmap_l.
  eapply Forall2_impl; [exact Hitems|].
  intros l item [_ Hl]. simpl. rewrite Hl. simpl. apply mapM_as_str.
Qed.

Lemma loop_inv_step predictions references pairs ps rs h ls items p r :
  loop_inv predictions references pairs ps rs h ls items →
  let l := fresh (dom h) in
  loop_inv predictions references pairs ps rs
    (<[pairs := (VRef <$> ls) ++ [VRef l]]> (<[l := [VStr p; VStr r]]> h))
    (ls ++ [l]) (items ++ [[p; r]]).
Proof.
  intros [Hps Hrs Hpairs Hitems Hnp Hnr] l.
  assert (Hl : h !! l = None) by apply not_elem_of_dom, is_fresh.
  assert (Hlp : l ≠ pairs) by congruence.
  split; try done.
  - rewrite lookup_insert_ne by done. rewrite lookup_insert_ne by congruence. done.
  - rewrite lookup_insert_ne by done. rewrite lookup_insert_ne by congruence. done.
  - rewrite lookup_insert_eq. by rewrite fmap_app.
  - apply Forall2_app.
    + eapply Forall2_impl; [exact Hitems|].
      intros l' item [Hne Hl']. split; [done|].
      rewrite lookup_insert_ne by done.
      rewrite lookup_insert_ne by congruence. done.
    + constructor; [|constructor]. split; [done|].
      rewrite lookup_insert_ne by done. by rewrite lookup_insert_eq.
Qed.

Section Run.

Variable W : World.

Lemma for_zip_spec predictions references pairs ps rs fuel :
  ∀ i s ls items,
    loop_inv predictions references pairs ps rs (heap s) ls items →
    (length (drop i (pairs_of ps rs)) < fuel)%nat →
    ∃ h' ls',
      for_zip fuel i predictions references (append_pair pairs) s
        = (Val tt, State h' (trace s)) ∧
      loop_inv predictions references pairs ps rs h' ls'
        (items ++ drop i (pairs_of ps rs)).
Proof.
  induction fuel as [|fuel IH]; intros i s ls items Hinv Hfuel; [lia|].
  simpl. run. unfold load.
  rewrite (inv_predictions _ _ _ _ _ _ _ _ Hinv). simpl.
  rewrite list_lookup_fmap.
  destruct (ps !! i) as [p|] eqn:Hp; simpl.
  2:{ exists (heap s), ls. rewrite pairs_of_lookup_None_l, app_nil_r by done.
      by destruct s. }
  rewrite (inv_references _ _ _ _ _ _ _ _ Hinv). simpl.
  rewrite list_lookup_fmap.
  destruct (rs !! i) as [r|] eqn:Hr; simpl.
  2:{ exists (heap s), ls. rewrite pairs_of_lookup_None_r, app_nil_r by done.
      by destruct s. }
  pose proof (pairs_of_lookup ps rs i p r Hp Hr) as Hi.
  rewrite (drop_S _ _ _ Hi) in Hfuel |- *. simpl in Hfuel.
  unfold append_pair at 1. run. unfold append. simpl.
  rewrite lookup_insert_ne.
  2:{ intros Heq. pose proof (is_fresh (dom (heap s))) as Hf.
      rewrite Heq in Hf. apply Hf, elem_of_dom.
      rewrite (inv_pairs _ _ _ _ _ _ _ _ Hinv). done. }
  rewrite (inv_pairs _ _ _ _ _ _ _ _ Hinv). simpl.
  pose proof (loop_inv_step _ _ _ _ _ _ _ _ p r Hinv) as Hstep. simpl in Hstep.
  edestruct (IH (S i) (State _ (trace s)) _ _ Hstep) as (h' & ls' & Hrun & Hinv');
    [lia|].
  exists h', ls'. split; [exact Hrun|].
  by rewrite <- app_assoc in Hinv'.
Qed.

(** The run of a call that passes the architecture check, on a store whose
    two argument lists hold strings. *)
Lemma _compute_ok fuel predictions references model_name return_average batch_size
    s ps rs :
  is_cross_encoder_of (from_pretrained W model_name) = Some true →
  heap s !! predictions = Some (VStr <$> ps) →
  heap s !! references = Some (VStr <$> rs) →
  (length ps `min` length rs < fuel)%nat →
  let device := if cuda_is_available W then "cuda" else "cpu" in
  let scores := engine_predict W model_name device (pairs_of ps rs) batch_size in
  ∃ h',
    _compute W fuel predictions references model_name return_average batch_size s
    = (Val (if return_average then RScoresAvg scores (np_mean W scores)
            else RScores scores),
       State h' (trace s ++ [EvFromPretrained model_name; EvCudaIsAvailable;
                             EvCrossEncoder model_name device;
                             EvPredict model_name device (pairs_of ps rs) batch_size])).
Proof.
  intros Hcheck Hps Hrs Hfuel device scores.
  unfold _compute, AutoConfig_from_pretrained. run. rewrite Hcheck. simpl.
  set (pairs := fresh (dom (heap s))).
  set (s1 := State _ _).
  assert (Hpairs : heap s !! pairs = None) by apply not_elem_of_dom, is_fresh.
  assert (Hinv : loop_inv predictions references pairs ps rs (heap s1) [] []).
  { subst s1. simpl. split; simpl.
    - rewrite lookup_insert_ne by congruence. done.
    - rewrite lookup_insert_ne by congruence. done.
    - by rewrite lookup_insert_eq.
    - constructor.
    - congruence.
    - congruence. }
  destruct (for_zip_spec predictions references pairs ps rs fuel 0 s1 [] [] Hinv)
    as (h' & ls' & Hrun & Hinv').
  { rewrite drop_0, pairs_of_length. lia. }
  fold device. rewrite Hrun. simpl.
  unfold predict_tolist. simpl.
  rewrite (loop_inv_resolve _ _ _ _ _ _ _ _ Hinv'). simpl. rewrite drop_0. run.
  exists h'. subst s1. simpl.
  repeat rewrite <- app_assoc. simpl.
  by destruct return_average.
Qed.

End Run.

(** ** The architecture check *)

Lemma substring_0_all (s : string) : String.substring 0 (String.length s) s = s.
Proof. induction s as [|c s IH]; simpl; [done|]. by rewrite IH. Qed.

Lemma substring_skip (pre s : string) (m : nat) :
  String.substring (String.length pre) m (pre +:+ s) = String.substring 0 m s.
Proof. induction pre as [|c pre IH]; simpl; [done|]. exact IH. Qed.

Lemma length_app_string (a b : string) :
  String.length (a +:+ b) = (String.length a + String.length b)%nat.
Proof. induction a as [|c a IH]; simpl; [done|]. by rewrite IH. Qed.

Lemma substring_split (s : string) :
  ∀ k, (k ≤ String.length s)%nat →
    s = String.substring 0 k s +:+ String.substring k (String.length s - k) s.
Proof.
  induction s as [|c s IH]; intros [|k] Hk; simpl in *; try lia.
  - done.
  - by rewrite substring_0_all.
  - rewrite (IH k) at 1 by lia. reflexivity.
Qed.

(** [endswith] holds exactly of the strings that are some text followed by
    the suffix. *)
Lemma endswith_spec (s suffix : string) :
  endswith s suffix = true ↔ ∃ pre, s = pre +:+ suffix.
Proof.
  unfold endswith. rewrite andb_true_iff, Nat.leb_le, String.eqb_eq. split.
  - intros [Hle Hsub].
    exists (String.substring 0 (String.length s - String.length suffix) s).
    pose proof (substring_split s (String.length s - String.length suffix)) as Hs.
    replace (String.length s - (String.length s - String.length suffix))%nat
      with (String.length suffix) in Hs by lia.
    rewrite Hsub in Hs. apply Hs. lia.
  - intros [pre ->]. rewrite length_app_string. split; [lia|].
    replace (String.length pre + String.length suffix - String.length suffix)%nat
      with (String.length pre) by lia.
    rewrite substring_skip. apply substring_0_all.
Qed.

Lemma is_cross_encoder_of_true (model_config : PretrainedConfig) :
  is_cross_encoder_of model_config = Some true ↔
  ∃ archs, architectures model_config = Some archs ∧
    ∃ a pre, a ∈ archs ∧ a = pre +:+ marker.
Proof.
  unfold is_cross_encoder_of.
  destruct (architectures model_config) as [[|a0 archs]|]; simpl.
  - split; [done|]. intros (? & [= <-] & a & _ & Hin & _). by apply elem_of_nil in Hin.
  - split.
    + intros [= H]. exists (a0 :: archs). split; [done|].
      change (existsb (λ a, endswith a marker) (a0 :: archs) = true) in H.
      apply existsb_exists in H as (a & Hin & Hend).
      apply endswith_spec in Hend as [pre ->].
      exists (pre +:+ marker), pre. by rewrite list_elem_of_In.
    + intros (? & [= <-] & a & pre & Hin & ->). f_equal.
      change (existsb (λ a, endswith a marker) (a0 :: archs) = true).
      apply existsb_exists. exists (pre +:+ marker).
      rewrite <- list_elem_of_In. split; [done|]. apply endswith_spec. by exists pre.
  - split; [done|]. by intros (? & [=] & _).
Qed.

Lemma is_cross_encoder_of_None (model_config : PretrainedConfig) :
  is_cross_encoder_of model_config = None ↔
  architectures model_config = None ∨ architectures model_config = Some [].
Proof.
  unfold is_cross_encoder_of.
  destruct (architectures model_config) as [[|a0 archs]|]; simpl;
    (split; [try done; auto | by intros [?|?]]).
Qed.

Lemma is_cross_encoder_of_false (model_config : PretrainedConfig) :
  is_cross_encoder_of model_config = Some false ↔
  ∃ archs, architectures model_config = Some archs ∧ archs ≠ [] ∧
    ∀ a pre, a ∈ archs → a ≠ pre +:+ marker.
Proof.
  destruct (is_cross_encoder_of model_config) as [[|]|] eqn:E.
  - apply is_cross_encoder_of_true in E as (archs & Ha & a & pre & Hin & ->).
    split; [done|]. intros (archs' & Ha' & _ & Hno).
    rewrite Ha in Ha'. injection Ha' as <-. by destruct (Hno _ pre Hin).
  - split; [intros _|done].
    unfold is_cross_encoder_of in E.
    destruct (architectures model_config) as [[|a0 archs]|] eqn:Ha; simpl in E; try done.
    exists (a0 :: archs). split; [done|]. split; [done|].
    intros a pre Hin ->.
    assert (is_cross_encoder_of model_config = Some true) as Ht.
    { apply is_cross_encoder_of_true. exists (a0 :: archs). split; [done|].
      by exists (pre +:+ marker), pre. }
    unfold is_cross_encoder_of in Ht. rewrite Ha in Ht. simpl in Ht. congruence.
  - split; [done|]. apply is_cross_encoder_of_None in E.
    intros (archs & Ha & Hne & _). destruct E as [E|E]; rewrite E in Ha; congruence.
Qed.

(** ** The stand-in engine keeps the engine's contract *)

Lemma stub_batches_concat {A} (n fuel : nat) :
  ∀ l : list A, concat (Stub.batches fuel n l) = l.
Proof.
  induction fuel as [|fuel IH]; intros [|x l]; try done.
  - cbn [Stub.batches concat]. by rewrite app_nil_r.
  - cbn [Stub.batches concat]. rewrite IH. apply take_drop.
Qed.

Lemma concat_map_map {A B} (f : A → B) (bs : list (list A)) :
  concat (map (map f) bs) = f <$> concat bs.
Proof.
  induction bs as [|b bs IH]; simpl; [done|]. by rewrite fmap_app, IH.
Qed.

Lemma stub_scores_each_pair : scores_each_pair Stub.world (λ _ _, Stub.score).
Proof.
  intros model_name device pairs batch_size. simpl. unfold Stub.predict.
  rewrite concat_map_map. by rewrite stub_batches_concat.
Qed.

Lemma scores_each_pair_one_score W score :
  scores_each_pair W score → one_score_per_pair W.
Proof. intros H m d ps b. by rewrite H, length_fmap. Qed.

Lemma scores_each_pair_batch_invariant W score :
  scores_each_pair W score → batch_invariant W.
Proof. intros H m d ps b b'. by rewrite !H. Qed.

Lemma stub_one_score_per_pair : one_score_per_pair Stub.world.
Proof. exact (scores_each_pair_one_score _ _ stub_scores_each_pair). Qed.

Lemma stub_batch_invariant : batch_invariant Stub.world.
Proof. exact (scores_each_pair_batch_invariant _ _ stub_scores_each_pair). Qed.

(** ** Runs that stop at the architecture check *)

Section Check.

Variable W : World.

(** A declared list without the marker: the diagnostic is printed, the call
    returns nothing, and no collaborator but the configuration loader is
    touched. *)
Lemma _compute_rejects fuel predictions references model_name return_average
    batch_size s :
  is_cross_encoder_of (from_pretrained W model_name) = Some false →
  _compute W fuel predictions references model_name return_average batch_size s
  = (Val RNone,
     State (heap s) (trace s ++ [EvFromPretrained model_name;
                                 EvPrint (invalid_message model_name)])).
Proof.
  intros Hcheck. unfold _compute, AutoConfig_from_pretrained. run.
  rewrite Hcheck. simpl. by rewrite <- app_assoc.
Qed.

(** No declared architecture: [is_cross_encoder] was never assigned, and
    reading it raises. *)
Lemma _compute_unassigned fuel predictions references model_name return_average
    batch_size s :
  is_cross_encoder_of (from_pretrained W model_name) = None →
  _compute W fuel predictions references model_name return_average batch_size s
  = (Exc (UnboundLocalError "is_cross_encoder"),
     State (heap s) (trace s ++ [EvFromPretrained model_name])).
Proof.
  intros Hcheck. unfold _compute, AutoConfig_from_pretrained. run.
  by rewrite Hcheck.
Qed.

End Check.

(** ** The claims *)

(** C1: for equal-length lists of predictions and references that pass the
    architecture check, the call returns a score list of the same length as
    the inputs, whose i-th score is the engine's score for the pair
    [[predictions[i], references[i]]], prediction first, in input order. *)
Theorem compute_scores_in_input_order (W : World)
    (score : string → string → list string → pyfloat)
    fuel predictions references model_name return_average batch_size s
    (ps rs : list string) :
  scores_each_pair W score →
  is_cross_encoder_of (from_pretrained W model_name) = Some true →
  heap s !! predictions = Some (VStr <$> ps) →
  heap s !! references = Some (VStr <$> rs) →
  length ps = length rs →
  (length ps < fuel)%nat →
  ∃ v s' scores,
    _compute W fuel predictions references model_name return_average batch_size s
      = (Val v, s') ∧
    returned_scores v = Some scores ∧
    length scores = length ps ∧
    ∀ i prediction reference,
      ps !! i = Some prediction → rs !! i = Some reference →
      scores !! i = Some (score model_name (selected_device W) [prediction; reference]).
Proof.
  intros Hengine Hcheck Hps Hrs Hlen Hfuel.
  destruct (_compute_ok W fuel predictions references model_name return_average
              batch_size s ps rs Hcheck Hps Hrs) as [h' Hrun]; [lia|].
  eexists _, _, (engine_predict W model_name (selected_device W) (pairs_of ps rs) batch_size).
  split; [exact Hrun|]. split; [by destruct return_average|].
  split.
  - rewrite Hengine, length_fmap, pairs_of_length. lia.
  - intros i p r Hp Hr. rewrite Hengine, list_lookup_fmap.
    by rewrite (pairs_of_lookup ps rs i p r Hp Hr).
Qed.

Lemma compute_scores_in_input_order_witness :
  ∃ v s' scores,
    _compute Stub.world 4 Stub.predictions Stub.references default_model_name
      default_return_average default_batch_size Stub.sample_store = (Val v, s') ∧
    returned_scores v = Some scores ∧
    length scores = length Stub.sample_predictions ∧
    ∀ i prediction reference,
      Stub.sample_predictions !! i = Some prediction →
      Stub.sample_references !! i = Some reference →
      scores !! i = Some (Stub.score [prediction; reference]).
Proof.
  apply (compute_scores_in_input_order Stub.world (λ _ _, Stub.score) 4
           Stub.predictions Stub.references default_model_name
           default_return_average default_batch_size Stub.sample_store
           Stub.sample_predictions Stub.sample_references).
  - exact stub_scores_each_pair.
  - reflexivity.
  - reflexivity.
  - reflexivity.
  - reflexivity.
  - simpl. lia.
Defined.


(** C3, at a model whose configuration declares no architecture: the call
    does not print the diagnostic and return nothing, it raises
    [UnboundLocalError] on the unassigned [is_cross_encoder]; the engine is
    not touched. *)
Theorem compute_undeclared_architectures_raises :
  _compute Stub.world 4 Stub.predictions Stub.references "local/undeclared"
    default_return_average default_batch_size Stub.sample_store
  = (Exc (UnboundLocalError "is_cross_encoder"),
     State (heap Stub.sample_store) [EvFromPretrained "local/undeclared"]).
Proof. by rewrite _compute_unassigned. Qed.

(** C4: with an engine whose scores do not depend on the batching, two calls
    that differ in [batch_size] alone return the same value and leave the
    same store. *)
Theorem compute_batch_size_irrelevant (W : World)
    fuel predictions references model_name return_average s
    (batch_size batch_size' : Z) :
  batch_invariant W →
  (_compute W fuel predictions references model_name return_average batch_size s).1
  = (_compute W fuel predictions references model_name return_average batch_size' s).1
  ∧ heap (_compute W fuel predictions references model_name return_average
            batch_size s).2
  = heap (_compute W fuel predictions references model_name return_average
            batch_size' s).2.
Proof.
  intros Hengine. unfold _compute, AutoConfig_from_pretrained. run.
  destruct (is_cross_encoder_of _) as [[|]|]; simpl; [| done | done].
  destruct (for_zip _ _ _ _ _ _) as [[[]| | |] s2]; simpl; try done.
  unfold predict_tolist.
  destruct (resolve_pairs _ _) as [pairs|]; simpl; [|done]. run.
  rewrite (Hengine model_name _ pairs batch_size batch_size').
  by destruct return_average.
Qed.

Lemma compute_batch_size_irrelevant_witness :
  (_compute Stub.world 4 Stub.predictions Stub.references default_model_name
     true 1 Stub.sample_store).1
  = (_compute Stub.world 4 Stub.predictions Stub.references default_model_name
     true 64 Stub.sample_store).1
  ∧ heap (_compute Stub.world 4 Stub.predictions Stub.references default_model_name
            true 1 Stub.sample_store).2
  = heap (_compute Stub.world 4 Stub.predictions Stub.references default_model_name
            true 64 Stub.sample_store).2.
Proof.
  apply (compute_batch_size_irrelevant Stub.world 4 Stub.predictions
           Stub.references default_model_name true Stub.sample_store 1 64).
  exact stub_batch_invariant.
Defined.

(** C5: on lists of different lengths that pass the architecture check the
    call does not fail: it pairs the elements over the shorter list and
    returns as many scores as the shorter list has elements. *)
Theorem compute_truncates_to_shorter (W : World)
    fuel predictions references model_name return_average batch_size s
    (ps rs : list string) :
  one_score_per_pair W →
  is_cross_encoder_of (from_pretrained W model_name) = Some true →
  heap s !! predictions = Some (VStr <$> ps) →
  heap s !! references = Some (VStr <$> rs) →
  length ps ≠ length rs →
  (length ps `min` length rs < fuel)%nat →
  let n := (length ps `min` length rs)%nat in
  ∃ v s' scores,
    _compute W fuel predictions references model_name return_average batch_size s
      = (Val v, s') ∧
    returned_scores v = Some scores ∧
    length scores = n ∧
    scores = engine_predict W model_name (selected_device W)
               (pairs_of (take n ps) (take n rs)) batch_size.
Proof.
  intros Hengine Hcheck Hps Hrs _ Hfuel n.
  destruct (_compute_ok W fuel predictions references model_name return_average
              batch_size s ps rs Hcheck Hps Hrs Hfuel) as [h' Hrun].
  eexists _, _, _. split; [exact Hrun|]. split; [by destruct return_average|].
  split.
  - by rewrite Hengine, pairs_of_length.
  - subst n. by rewrite <- pairs_of_shorter.
Qed.

Lemma compute_truncates_to_shorter_witness :
  ∃ v s' scores,
    _compute Stub.world 4 Stub.predictions Stub.references default_model_name
      default_return_average default_batch_size
      (Stub.store Stub.sample_predictions (take 2 Stub.sample_references))
      = (Val v, s') ∧
    returned_scores v = Some scores ∧
    length scores = 2%nat ∧
    scores = engine_predict Stub.world default_model_name "cpu"
               (pairs_of (take 2 Stub.sample_predictions)
                  (take 2 (take 2 Stub.sample_references))) default_batch_size.
Proof.
  apply (compute_truncates_to_shorter Stub.world 4 Stub.predictions Stub.references
           default_model_name default_return_average default_batch_size
           (Stub.store Stub.sample_predictions (take 2 Stub.sample_references))
           Stub.sample_predictions (take 2 Stub.sample_references)).
  - exact stub_one_score_per_pair.
  - reflexivity.
  - reflexivity.
  - reflexivity.
  - simpl. lia.
  - simpl. lia.
Defined.

(** C6: on two empty lists (architecture check passed) the call returns an
    empty score list; with [return_average=True] the average it returns is
    [nan], the "undefined" value of [float]. *)
Theorem compute_empty_inputs (W : World)
    fuel predictions references model_name return_average batch_size s :
  one_score_per_pair W →
  is_cross_encoder_of (from_pretrained W model_name) = Some true →
  heap s !! predictions = Some [] →
  heap s !! references = Some [] →
  (0 < fuel)%nat →
  (_compute W fuel predictions references model_name return_average batch_size s).1
  = Val (if return_average then RScoresAvg [] NaN else RScores []).
Proof.
  intros Hengine Hcheck Hps Hrs Hfuel.
  destruct (_compute_ok W fuel predictions references model_name return_average
              batch_size s [] [] Hcheck Hps Hrs Hfuel) as [h' Hrun].
  rewrite Hrun. simpl.
  pose proof (Hengine model_name (selected_device W) [] batch_size) as Hlen.
  apply nil_length_inv in Hlen. unfold selected_device in Hlen.
  unfold pairs_of. simpl. by rewrite Hlen.
Qed.

Lemma compute_empty_inputs_witness :
  (_compute Stub.world 1 Stub.predictions Stub.references default_model_name
     true default_batch_size (Stub.store [] [])).1
  = Val (RScoresAvg [] NaN).
Proof.
  apply (compute_empty_inputs Stub.world 1 Stub.predictions Stub.references
           default_model_name true default_batch_size (Stub.store [] [])).
  - exact stub_one_score_per_pair.
  - reflexivity.
  - reflexivity.
  - reflexivity.
  - lia.
Defined.

(** C7: a call that passes the architecture check asks the host once whether
    an accelerator is available, loads the engine for [model_name] on
    ["cuda"] exactly when it is and on ["cpu"] otherwise, and scores with
    that engine. *)
Theorem compute_selects_device (W : World)
    fuel predictions references model_name return_average batch_size s
    (ps rs : list string) :
  is_cross_encoder_of (from_pretrained W model_name) = Some true →
  heap s !! predictions = Some (VStr <$> ps) →
  heap s !! references = Some (VStr <$> rs) →
  (length ps `min` length rs < fuel)%nat →
  ∃ device pairs,
    trace (_compute W fuel predictions references model_name return_average
             batch_size s).2
    = trace s ++ [EvFromPretrained model_name; EvCudaIsAvailable;
                  EvCrossEncoder model_name device;
                  EvPredict model_name device pairs batch_size] ∧
    (device = "cuda" ↔ cuda_is_available W = true) ∧
    (device = "cpu" ↔ cuda_is_available W = false).
Proof.
  intros Hcheck Hps Hrs Hfuel.
  destruct (_compute_ok W fuel predictions references model_name return_average
              batch_size s ps rs Hcheck Hps Hrs Hfuel) as [h' Hrun].
  rewrite Hrun. simpl. eexists _, _. split; [done|].
  by destruct (cuda_is_available W).
Qed.

Lemma compute_selects_device_witness :
  ∃ device pairs,
    trace (_compute Stub.world 4 Stub.predictions Stub.references default_model_name
             default_return_average default_batch_size Stub.sample_store).2
    = trace Stub.sample_store ++
        [EvFromPretrained default_model_name; EvCudaIsAvailable;
         EvCrossEncoder default_model_name device;
         EvPredict default_model_name device pairs default_batch_size] ∧
    (device = "cuda" ↔ cuda_is_available Stub.world = true) ∧
    (device = "cpu" ↔ cuda_is_available Stub.world = false).
Proof.
  apply (compute_selects_device Stub.world 4 Stub.predictions Stub.references
           default_model_name default_return_average default_batch_size
           Stub.sample_store Stub.sample_predictions Stub.sample_references).
  - reflexivity.
  - reflexivity.
  - reflexivity.
  - simpl. lia.
Defined.

(** C8: whatever the arguments and however the call ends (scores, the
    rejected-architecture return, an exception), the list objects passed as
    [predictions] and [references] hold after the call what they held
    before it. *)
Theorem compute_preserves_arguments (W : World)
    fuel predictions references model_name return_average batch_size s
    (xs ys : list pyval) :
  heap s !! predictions = Some xs →
  heap s !! references = Some ys →
  heap (_compute W fuel predictions references model_name return_average
          batch_size s).2 !! predictions = Some xs ∧
  heap (_compute W fuel predictions references model_name return_average
          batch_size s).2 !! references = Some ys.
Proof.
  intros Hxs Hys.
  pose proof (_compute_extends W fuel predictions references model_name
                return_average batch_size s) as Hext.
  split; eapply lookup_weaken; eauto.
Qed.

Lemma compute_preserves_arguments_witness :
  heap (_compute Stub.world 4 Stub.predictions Stub.references default_model_name
          true default_batch_size Stub.sample_store).2 !! Stub.predictions
    = Some (VStr <$> Stub.sample_predictions) ∧
  heap (_compute Stub.world 4 Stub.predictions Stub.references default_model_name
          true default_batch_size Stub.sample_store).2 !! Stub.references
    = Some (VStr <$> Stub.sample_references).
Proof.
  apply (compute_preserves_arguments Stub.world 4 Stub.predictions Stub.references
           default_model_name true default_batch_size Stub.sample_store).
  - reflexivity.
  - reflexivity.
Defined.

(** C9: the call with [return_average=False] returns what the call with
    [return_average=True] returns once the average is dropped, and both
    leave the same store and trace: the flag adds the average and changes
    nothing else. *)
Theorem compute_average_leaves_scores (W : World)
    fuel predictions references model_name batch_size s :
  result_map drop_average
    (_compute W fuel predictions references model_name true batch_size s).1
  = (_compute W fuel predictions references model_name false batch_size s).1
  ∧ (_compute W fuel predictions references model_name true batch_size s).2
  = (_compute W fuel predictions references model_name false batch_size s).2.
Proof.
  unfold _compute, AutoConfig_from_pretrained. run.
  destruct (is_cross_encoder_of _) as [[|]|]; simpl; [| done | done].
  destruct (for_zip _ _ _ _ _ _) as [[[]| | |] s2]; simpl; try done.
  unfold predict_tolist.
  by destruct (resolve_pairs _ _) as [pairs|].
Qed.


(** * Further properties of [_compute] *)

(** ** Helpers *)

Lemma append_pair_trace pairs x y s :
  trace (append_pair pairs x y s).2 = trace s.
Proof.
  unfold append_pair. run. unfold append. simpl.
  by destruct (<[_:=_]> (heap s) !! pairs).
Qed.

Lemma for_zip_trace predictions references pairs fuel :
  ∀ i s,
    trace (for_zip fuel i predictions references (append_pair pairs) s).2 = trace s.
Proof.
  induction fuel as [|fuel IH]; intros i s; [done|].
  simpl. run. unfold load.
  destruct (heap s !! predictions) as [xs|]; simpl; [|done].
  destruct (xs !! i) as [x|]; simpl; [|done].
  destruct (heap s !! references) as [ys|]; simpl; [|done].
  destruct (ys !! i) as [y|]; simpl; [|done].
  pose proof (append_pair_trace pairs x y s) as Hstep.
  destruct (append_pair pairs x y s) as [[[]| | |] s1]; simpl in *; try done.
  by rewrite IH.
Qed.

Lemma pairs_of_app ps1 rs1 ps2 rs2 :
  length ps1 = length rs1 →
  pairs_of (ps1 ++ ps2) (rs1 ++ rs2) = pairs_of ps1 rs1 ++ pairs_of ps2 rs2.
Proof. intros Hlen. unfold pairs_of. by apply zip_with_app. Qed.

Lemma pairs_of_swap ps rs : pairs_of rs ps = reverse <$> pairs_of ps rs.
Proof.
  revert rs. induction ps as [|p ps IH]; intros [|r rs]; simpl; try done.
  unfold pairs_of in *. simpl. by rewrite IH.
Qed.

Lemma _compute_passes_trace (W : World)
    fuel predictions references model_name return_average batch_size s :
  is_cross_encoder_of (from_pretrained W model_name) = Some true →
  ∃ rest,
    trace (_compute W fuel predictions references model_name return_average
             batch_size s).2
    = trace s ++ [EvFromPretrained model_name; EvCudaIsAvailable;
                  EvCrossEncoder model_name (selected_device W)] ++ rest.
Proof.
  intros Hcheck. unfold _compute, AutoConfig_from_pretrained. run.
  rewrite Hcheck. simpl.
  set (s1 := State _ _).
  pose proof (for_zip_trace predictions references (fresh (dom (heap s)))
                fuel 0 s1) as Htr.
  assert (Hs1 : trace s1 = trace s ++ [EvFromPretrained model_name; EvCudaIsAvailable;
                  EvCrossEncoder model_name (selected_device W)]).
  { subst s1. simpl. by rewrite <- !app_assoc. }
  destruct (for_zip _ _ _ _ _ s1) as [[[]| | |] s2]; simpl in *.
  2-4: exists []; simpl; congruence.
  unfold predict_tolist.
  destruct (resolve_pairs _ _) as [pairs|]; simpl; run.
  - exists [EvPredict model_name (selected_device W) pairs batch_size].
    destruct return_average; simpl; by rewrite Htr, Hs1, <- app_assoc.
  - exists []. simpl. congruence.
Qed.

Lemma for_zip_no_exc predictions references pairs fuel :
  ∀ i s e,
    (for_zip fuel i predictions references (append_pair pairs) s).1 ≠ Exc e.
Proof.
  induction fuel as [|fuel IH]; intros i s e; [done|].
  simpl. run. unfold load.
  destruct (heap s !! predictions) as [xs|]; simpl; [|done].
  destruct (xs !! i) as [x|]; simpl; [|done].
  destruct (heap s !! references) as [ys|]; simpl; [|done].
  destruct (ys !! i) as [y|]; simpl; [|done].
  assert (Hstep : ∀ e', (append_pair pairs x y s).1 ≠ Exc e').
  { intros e'. unfold append_pair. run. unfold append. simpl.
    by destruct (<[_:=_]> (heap s) !! pairs). }
  destruct (append_pair pairs x y s) as [[[]|e'| |] s1]; simpl in *;
    [apply IH | by destruct (Hstep e') | done | done].
Qed.

(** The ways a call can end, with what it did on the way. *)
Lemma _compute_shapes (W : World)
    fuel predictions references model_name return_average batch_size s :
  let r := _compute W fuel predictions references model_name return_average
             batch_size s in
  let device := selected_device W in
  (is_cross_encoder_of (from_pretrained W model_name) = None ∧
   r = (Exc (UnboundLocalError "is_cross_encoder"),
        State (heap s) (trace s ++ [EvFromPretrained model_name]))) ∨
  (is_cross_encoder_of (from_pretrained W model_name) = Some false ∧
   r = (Val RNone,
        State (heap s) (trace s ++ [EvFromPretrained model_name;
                                    EvPrint (invalid_message model_name)]))) ∨
  (is_cross_encoder_of (from_pretrained W model_name) = Some true ∧
   (r.1 = Wrong ∨ r.1 = Timeout) ∧
   trace r.2 = trace s ++ [EvFromPretrained model_name; EvCudaIsAvailable;
                           EvCrossEncoder model_name device]) ∨
  (is_cross_encoder_of (from_pretrained W model_name) = Some true ∧
   ∃ pairs,
     r.1 = Val (if return_average
                then RScoresAvg (engine_predict W model_name device pairs batch_size)
                       (np_mean W (engine_predict W model_name device pairs batch_size))
                else RScores (engine_predict W model_name device pairs batch_size)) ∧
     trace r.2 = trace s ++ [EvFromPretrained model_name; EvCudaIsAvailable;
                             EvCrossEncoder model_name device;
                             EvPredict model_name device pairs batch_size]).
Proof.
  intros r device.
  destruct (is_cross_encoder_of (from_pretrained W model_name)) as [[|]|] eqn:Hcheck.
  - right. right. subst r.
    unfold _compute, AutoConfig_from_pretrained. run. rewrite Hcheck. simpl.
    set (s1 := State _ _).
    pose proof (for_zip_trace predictions references (fresh (dom (heap s)))
                  fuel 0 s1) as Htr.
    pose proof (for_zip_no_exc predictions references (fresh (dom (heap s)))
                  fuel 0 s1) as Hexc.
    assert (Hs1 : trace s1 = trace s ++ [EvFromPretrained model_name;
                    EvCudaIsAvailable; EvCrossEncoder model_name device]).
    { subst s1. simpl. by rewrite <- !app_assoc. }
    destruct (for_zip _ _ _ _ _ s1) as [[[]|e| |] s2]; simpl in *.
    + unfold predict_tolist.
      destruct (resolve_pairs _ _) as [pairs|]; simpl; run.
      * right. split; [done|]. exists pairs.
        destruct return_average; simpl; (split; [done|]);
          by rewrite Htr, Hs1, <- app_assoc.
      * left. split; [done|]. split; [by left|]. congruence.
    + by destruct (Hexc e).
    + left. split; [done|]. split; [by left|]. congruence.
    + left. split; [done|]. split; [by right|]. congruence.
  - right. left. split; [done|]. by apply _compute_rejects.
  - left. split; [done|]. by apply _compute_unassigned.
Qed.

(** ** Properties *)

(** X1: a model whose configuration declares a non-empty architecture list
    in which no entry ends with the marker is rejected: the call prints the
    one diagnostic line naming the model and returns nothing; it does not ask
    for the device, load the engine or score, and it leaves the store as it
    was, whatever the other arguments are. *)
Theorem compute_rejects_unmarked_architectures (W : World)
    fuel predictions references model_name return_average batch_size s
    (a : string) (archs : list string) :
  architectures (from_pretrained W model_name) = Some (a :: archs) →
  Forall (λ x, endswith x "ForSequenceClassification" = false) (a :: archs) →
  _compute W fuel predictions references model_name return_average batch_size s
  = (Val RNone,
     State (heap s)
       (trace s ++
        [EvFromPretrained model_name;
         EvPrint ("Invalid model architecture, " +:+ model_name +:+
                  " is not a cross-encoder.")])).
Proof.
  intros Harchs Hnone. apply _compute_rejects.
  unfold is_cross_encoder_of. rewrite Harchs. simpl. f_equal.
  change (existsb (λ x, endswith x marker) (a :: archs) = false).
  apply not_true_is_false. intros (x & Hin & Hx)%existsb_exists.
  rewrite Forall_forall in Hnone. apply list_elem_of_In, Hnone in Hin.
  unfold marker in Hx. congruence.
Qed.

Lemma compute_rejects_unmarked_architectures_witness :
  _compute Stub.world 4 Stub.predictions Stub.references "bert-base-uncased"
    true 8 Stub.sample_store
  = (Val RNone,
     State (heap Stub.sample_store)
       (trace Stub.sample_store ++
        [EvFromPretrained "bert-base-uncased";
         EvPrint ("Invalid model architecture, " +:+ "bert-base-uncased" +:+
                  " is not a cross-encoder.")])).
Proof.
  apply (compute_rejects_unmarked_architectures Stub.world 4 Stub.predictions
           Stub.references "bert-base-uncased" true 8 Stub.sample_store
           "BertForMaskedLM" []).
  - reflexivity.
  - repeat constructor.
Defined.

(** X2: whenever the configuration declares no architecture (the attribute
    is [None] or an empty list), the call raises [UnboundLocalError] for
    [is_cross_encoder] right after loading the configuration: nothing is
    printed, no engine is loaded and the store is as it was. *)
Theorem compute_raises_without_architectures (W : World)
    fuel predictions references model_name return_average batch_size s :
  architectures (from_pretrained W model_name) = None ∨
  architectures (from_pretrained W model_name) = Some [] →
  _compute W fuel predictions references model_name return_average batch_size s
  = (Exc (UnboundLocalError "is_cross_encoder"),
     State (heap s) (trace s ++ [EvFromPretrained model_name])).
Proof.
  intros Harchs. apply _compute_unassigned. by apply is_cross_encoder_of_None.
Qed.

Lemma compute_raises_without_architectures_witness :
  _compute Stub.world 4 Stub.predictions Stub.references "local/other"
    true 8 (Stub.store [] [])
  = (Exc (UnboundLocalError "is_cross_encoder"),
     State (heap (Stub.store [] []))
       (trace (Stub.store [] []) ++ [EvFromPretrained "local/other"])).
Proof.
  apply (compute_raises_without_architectures Stub.world 4 Stub.predictions
           Stub.references "local/other" true 8 (Stub.store [] [])).
  left. reflexivity.
Defined.

(** X3: the call goes on to ask for the device and load the engine exactly
    when the configuration declares an architecture list with an entry that
    is some text followed by ["ForSequenceClassification"]. *)
Theorem compute_loads_engine_iff_marked (W : World)
    fuel predictions references model_name return_average batch_size s :
  (∃ rest,
     trace (_compute W fuel predictions references model_name return_average
              batch_size s).2
     = trace s ++ [EvFromPretrained model_name; EvCudaIsAvailable;
                   EvCrossEncoder model_name (selected_device W)] ++ rest)
  ↔ ∃ archs,
      architectures (from_pretrained W model_name) = Some archs ∧
      ∃ a pre, a ∈ archs ∧ a = pre +:+ "ForSequenceClassification".
Proof.
  assert (Hmarked :
    is_cross_encoder_of (from_pretrained W model_name) = Some true ↔
    ∃ archs,
      architectures (from_pretrained W model_name) = Some archs ∧
      ∃ a pre, a ∈ archs ∧ a = pre +:+ "ForSequenceClassification").
  { exact (is_cross_encoder_of_true (from_pretrained W model_name)). }
  rewrite <- Hmarked. clear Hmarked.
  pose proof (_compute_shapes W fuel predictions references model_name
                return_average batch_size s) as Hshape. simpl in Hshape.
  split.
  - intros [rest Htrace].
    destruct Hshape as [[_ Hr]|[[_ Hr]|[[Hc _]|[Hc _]]]]; try done.
    + rewrite Hr in Htrace. simpl in Htrace.
      apply app_inv_head in Htrace. done.
    + rewrite Hr in Htrace. simpl in Htrace.
      apply app_inv_head in Htrace. done.
  - intros Hcheck. by apply _compute_passes_trace.
Qed.

(** X4: the diagnostic is printed exactly when the call returns nothing, and
    it is the only line the call ever prints. *)
Theorem compute_prints_iff_returns_nothing (W : World)
    fuel predictions references model_name return_average batch_size s :
  ∃ new,
    trace (_compute W fuel predictions references model_name return_average
             batch_size s).2 = trace s ++ new ∧
    (EvPrint (invalid_message model_name) ∈ new ↔
     (_compute W fuel predictions references model_name return_average
        batch_size s).1 = Val RNone) ∧
    (∀ line, EvPrint line ∈ new → line = invalid_message model_name).
Proof.
  pose proof (_compute_shapes W fuel predictions references model_name
                return_average batch_size s) as Hshape. simpl in Hshape.
  destruct Hshape as [[_ Hr]|[[_ Hr]|[(_ & Hres & Htr)|(_ & pairs & Hres & Htr)]]].
  - rewrite Hr. simpl. eexists. split; [done|]. split.
    + split; [|done]. intros Hin. by apply list_elem_of_singleton in Hin.
    + intros line Hin. by apply list_elem_of_singleton in Hin.
  - rewrite Hr. simpl. eexists. split; [done|]. split.
    + split; [done|]. intros _. apply list_elem_of_further, list_elem_of_here.
    + intros line Hin. rewrite !elem_of_cons in Hin.
      destruct Hin as [Hin|[Hin|Hin]]; [done | congruence |].
      by apply elem_of_nil in Hin.
  - rewrite Htr. eexists. split; [done|]. split.
    + split.
      * intros Hin. rewrite !elem_of_cons in Hin.
        destruct Hin as [Hin|[Hin|[Hin|Hin]]]; try done.
        by apply elem_of_nil in Hin.
      * intros Hnone. destruct Hres as [Hres|Hres]; congruence.
    + intros line Hin. rewrite !elem_of_cons in Hin.
      destruct Hin as [Hin|[Hin|[Hin|Hin]]]; try done.
      by apply elem_of_nil in Hin.
  - rewrite Htr. eexists. split; [done|]. split.
    + split.
      * intros Hin. rewrite !elem_of_cons in Hin.
        destruct Hin as [Hin|[Hin|[Hin|[Hin|Hin]]]]; try done.
        by apply elem_of_nil in Hin.
      * intros Hnone. rewrite Hres in Hnone. by destruct return_average.
    + intros line Hin. rewrite !elem_of_cons in Hin.
      destruct Hin as [Hin|[Hin|[Hin|[Hin|Hin]]]]; try done.
      by apply elem_of_nil in Hin.
Qed.

(** X5: the elements of the longer list beyond the length of the shorter one
    never reach the engine: the call returns what it returns on the two
    lists cut to the length of the shorter one. *)
Theorem compute_ignores_surplus (W : World)
    fuel predictions references model_name return_average batch_size s s'
    (ps rs : list string) :
  is_cross_encoder_of (from_pretrained W model_name) = Some true →
  heap s !! predictions = Some (VStr <$> ps) →
  heap s !! references = Some (VStr <$> rs) →
  heap s' !! predictions = Some (VStr <$> take (length ps `min` length rs) ps) →
  heap s' !! references = Some (VStr <$> take (length ps `min` length rs) rs) →
  (length ps `min` length rs < fuel)%nat →
  (_compute W fuel predictions references model_name return_average batch_size s).1
  = (_compute W fuel predictions references model_name return_average batch_size s').1.
Proof.
  intros Hcheck Hps Hrs Hps' Hrs' Hfuel.
  destruct (_compute_ok W fuel predictions references model_name return_average
              batch_size s ps rs Hcheck Hps Hrs Hfuel) as [h1 ->].
  destruct (_compute_ok W fuel predictions references model_name return_average
              batch_size s' _ _ Hcheck Hps' Hrs') as [h2 ->].
  { rewrite !length_take. lia. }
  simpl. by rewrite pairs_of_shorter.
Qed.

Lemma compute_ignores_surplus_witness :
  (_compute Stub.world 4 Stub.predictions Stub.references default_model_name
     true 2 (Stub.store Stub.sample_predictions (take 1 Stub.sample_references))).1
  = (_compute Stub.world 4 Stub.predictions Stub.references default_model_name
     true 2 (Stub.store (take 1 Stub.sample_predictions)
               (take 1 Stub.sample_references))).1.
Proof.
  apply (compute_ignores_surplus Stub.world 4 Stub.predictions Stub.references
           default_model_name true 2
           (Stub.store Stub.sample_predictions (take 1 Stub.sample_references))
           (Stub.store (take 1 Stub.sample_predictions)
              (take 1 Stub.sample_references))
           Stub.sample_predictions (take 1 Stub.sample_references)).
  - reflexivity.
  - reflexivity.
  - reflexivity.
  - reflexivity.
  - reflexivity.
  - simpl. lia.
Defined.

(** X6: with an engine that scores each pair on its own, scoring two inputs
    joined end to end (the first with as many predictions as references)
    gives the scores of the first followed by the scores of the second. *)
Theorem compute_concatenation (W : World)
    (score : string → string → list string → pyfloat)
    fuel predictions references model_name batch_size s1 s2 s12
    (ps1 rs1 ps2 rs2 : list string) :
  scores_each_pair W score →
  is_cross_encoder_of (from_pretrained W model_name) = Some true →
  heap s1 !! predictions = Some (VStr <$> ps1) →
  heap s1 !! references = Some (VStr <$> rs1) →
  heap s2 !! predictions = Some (VStr <$> ps2) →
  heap s2 !! references = Some (VStr <$> rs2) →
  heap s12 !! predictions = Some (VStr <$> (ps1 ++ ps2)) →
  heap s12 !! references = Some (VStr <$> (rs1 ++ rs2)) →
  length ps1 = length rs1 →
  (length (ps1 ++ ps2) < fuel)%nat →
  ∃ scores1 scores2,
    (_compute W fuel predictions references model_name false batch_size s1).1
      = Val (RScores scores1) ∧
    (_compute W fuel predictions references model_name false batch_size s2).1
      = Val (RScores scores2) ∧
    (_compute W fuel predictions references model_name false batch_size s12).1
      = Val (RScores (scores1 ++ scores2)).
Proof.
  intros Hengine Hcheck Hps1 Hrs1 Hps2 Hrs2 Hps12 Hrs12 Hlen Hfuel.
  rewrite length_app in Hfuel.
  destruct (_compute_ok W fuel predictions references model_name false
              batch_size s1 ps1 rs1 Hcheck Hps1 Hrs1) as [h1 ->]; [lia|].
  destruct (_compute_ok W fuel predictions references model_name false
              batch_size s2 ps2 rs2 Hcheck Hps2 Hrs2) as [h2 ->]; [lia|].
  destruct (_compute_ok W fuel predictions references model_name false
              batch_size s12 _ _ Hcheck Hps12 Hrs12) as [h12 ->].
  { rewrite length_app. lia. }
  simpl. eexists _, _. split; [done|]. split; [done|].
  by rewrite !Hengine, pairs_of_app, fmap_app.
Qed.

Lemma compute_concatenation_witness :
  ∃ scores1 scores2,
    (_compute Stub.world 4 Stub.predictions Stub.references default_model_name
       false 2 (Stub.store (take 1 Stub.sample_predictions)
                  (take 1 Stub.sample_references))).1
      = Val (RScores scores1) ∧
    (_compute Stub.world 4 Stub.predictions Stub.references default_model_name
       false 2 (Stub.store (drop 1 Stub.sample_predictions)
                  (drop 1 Stub.sample_references))).1
      = Val (RScores scores2) ∧
    (_compute Stub.world 4 Stub.predictions Stub.references default_model_name
       false 2 Stub.sample_store).1
      = Val (RScores (scores1 ++ scores2)).
Proof.
  apply (compute_concatenation Stub.world (λ _ _, Stub.score) 4 Stub.predictions
           Stub.references default_model_name 2
           (Stub.store (take 1 Stub.sample_predictions)
              (take 1 Stub.sample_references))
           (Stub.store (drop 1 Stub.sample_predictions)
              (drop 1 Stub.sample_references))
           Stub.sample_store
           (take 1 Stub.sample_predictions) (take 1 Stub.sample_references)
           (drop 1 Stub.sample_predictions) (drop 1 Stub.sample_references)).
  - exact stub_scores_each_pair.
  - reflexivity.
  - reflexivity.
  - reflexivity.
  - reflexivity.
  - reflexivity.
  - reflexivity.
  - reflexivity.
  - reflexivity.
  - simpl. lia.
Defined.

(** X7: a second call with the same arguments, made in the store and trace
    the first call left behind, returns the same value and talks to the
    collaborators in the same way: what a call allocates is of no
    consequence to the next. *)
Theorem compute_repeatable (W : World)
    fuel predictions references model_name return_average batch_size s
    (ps rs : list string) :
  is_cross_encoder_of (from_pretrained W model_name) = Some true →
  heap s !! predictions = Some (VStr <$> ps) →
  heap s !! references = Some (VStr <$> rs) →
  (length ps `min` length rs < fuel)%nat →
  ∃ v new s1 s2,
    _compute W fuel predictions references model_name return_average batch_size s
      = (Val v, s1) ∧
    _compute W fuel predictions references model_name return_average batch_size s1
      = (Val v, s2) ∧
    trace s1 = trace s ++ new ∧
    trace s2 = trace s1 ++ new.
Proof.
  intros Hcheck Hps Hrs Hfuel.
  pose proof (_compute_extends W fuel predictions references model_name
                return_average batch_size s) as Hext.
  destruct (_compute_ok W fuel predictions references model_name return_average
              batch_size s ps rs Hcheck Hps Hrs Hfuel) as [h1 Hrun1].
  rewrite Hrun1 in Hext. simpl in Hext.
  set (s1 := State h1 _) in *.
  assert (Hps1 : heap s1 !! predictions = Some (VStr <$> ps))
    by (eapply lookup_weaken; eauto).
  assert (Hrs1 : heap s1 !! references = Some (VStr <$> rs))
    by (eapply lookup_weaken; eauto).
  destruct (_compute_ok W fuel predictions references model_name return_average
              batch_size s1 ps rs Hcheck Hps1 Hrs1 Hfuel) as [h2 Hrun2].
  eexists _, _, s1, _. split; [exact Hrun1|]. split; [exact Hrun2|]. done.
Qed.

Lemma compute_repeatable_witness :
  ∃ v new s1 s2,
    _compute Stub.world 4 Stub.predictions Stub.references default_model_name
      true 2 Stub.sample_store = (Val v, s1) ∧
    _compute Stub.world 4 Stub.predictions Stub.references default_model_name
      true 2 s1 = (Val v, s2) ∧
    trace s1 = trace Stub.sample_store ++ new ∧
    trace s2 = trace s1 ++ new.
Proof.
  apply (compute_repeatable Stub.world 4 Stub.predictions Stub.references
           default_model_name true 2 Stub.sample_store
           Stub.sample_predictions Stub.sample_references).
  - reflexivity.
  - reflexivity.
  - reflexivity.
  - simpl. lia.
Defined.

(** X9: the order of the two arguments matters only through the order inside
    each pair: with [predictions] and [references] exchanged, the engine is
    handed the same pairs, each reversed. *)
Theorem compute_swapped_arguments (W : World)
    fuel predictions references model_name return_average batch_size s
    (ps rs : list string) :
  is_cross_encoder_of (from_pretrained W model_name) = Some true →
  heap s !! predictions = Some (VStr <$> ps) →
  heap s !! references = Some (VStr <$> rs) →
  (length ps `min` length rs < fuel)%nat →
  ∃ before pairs,
    trace (_compute W fuel predictions references model_name return_average
             batch_size s).2
      = before ++ [EvPredict model_name (selected_device W) pairs batch_size] ∧
    trace (_compute W fuel references predictions model_name return_average
             batch_size s).2
      = before ++ [EvPredict model_name (selected_device W) (reverse <$> pairs)
                     batch_size] ∧
    Forall2 (λ p r, ∃ prediction reference,
               p = [prediction; reference] ∧ r = [reference; prediction])
      pairs (reverse <$> pairs).
Proof.
  intros Hcheck Hps Hrs Hfuel.
  destruct (_compute_ok W fuel predictions references model_name return_average
              batch_size s ps rs Hcheck Hps Hrs Hfuel) as [h1 ->].
  destruct (_compute_ok W fuel references predictions model_name return_average
              batch_size s rs ps Hcheck Hrs Hps) as [h2 ->]; [lia|].
  simpl.
  exists (trace s ++ [EvFromPretrained model_name; EvCudaIsAvailable;
                      EvCrossEncoder model_name (selected_device W)]),
         (pairs_of ps rs).
  rewrite <- !app_assoc. simpl. split; [done|]. split.
  - by rewrite pairs_of_swap.
  - apply Forall2_fmap_r, Forall_Forall2_diag, Forall_forall.
    intros p Hin. unfold pairs_of in Hin.
    apply list_elem_of_lookup in Hin as [i Hi].
    apply lookup_zip_with_Some in Hi as (x & y & -> & _ & _).
    by exists x, y.
Qed.

Lemma compute_swapped_arguments_witness :
  ∃ before pairs,
    trace (_compute Stub.world 4 Stub.predictions Stub.references default_model_name
             false 2 Stub.sample_store).2
      = before ++ [EvPredict default_model_name "cpu" pairs 2] ∧
    trace (_compute Stub.world 4 Stub.references Stub.predictions default_model_name
             false 2 Stub.sample_store).2
      = before ++ [EvPredict default_model_name "cpu" (reverse <$> pairs) 2] ∧
    Forall2 (λ p r, ∃ prediction reference,
               p = [prediction; reference] ∧ r = [reference; prediction])
      pairs (reverse <$> pairs).
Proof.
  apply (compute_swapped_arguments Stub.world 4 Stub.predictions Stub.references
           default_model_name false 2 Stub.sample_store
           Stub.sample_predictions Stub.sample_references).
  - reflexivity.
  - reflexivity.
  - reflexivity.
  - simpl. lia.
Defined.

(** X10: if either list is empty (the other may hold anything), the engine
    is handed no pair: the one scoring call is made with an empty list of
    pairs; with one score per pair the call then returns no scores, and
    [nan] as their average when the average is asked for. *)
Theorem compute_one_empty_list (W : World)
    fuel predictions references model_name return_average batch_size s
    (ps rs : list string) :
  one_score_per_pair W →
  is_cross_encoder_of (from_pretrained W model_name) = Some true →
  heap s !! predictions = Some (VStr <$> ps) →
  heap s !! references = Some (VStr <$> rs) →
  ps = [] ∨ rs = [] →
  (0 < fuel)%nat →
  (_compute W fuel predictions references model_name return_average batch_size s).1
  = Val (if return_average then RScoresAvg [] NaN else RScores []) ∧
  trace (_compute W fuel predictions references model_name return_average
           batch_size s).2
  = trace s ++ [EvFromPretrained model_name; EvCudaIsAvailable;
                EvCrossEncoder model_name (selected_device W);
                EvPredict model_name (selected_device W) [] batch_size].
Proof.
  intros Hengine Hcheck Hps Hrs Hempty Hfuel.
  assert (Hpairs : pairs_of ps rs = []).
  { unfold pairs_of. destruct Hempty as [-> | ->];
      [apply zip_with_nil_l | apply zip_with_nil_r]. }
  destruct (_compute_ok W fuel predictions references model_name return_average
              batch_size s ps rs Hcheck Hps Hrs) as [h' ->].
  { destruct Hempty as [-> | ->]; simpl; lia. }
  cbn [fst snd trace]. rewrite Hpairs.
  pose proof (Hengine model_name (selected_device W) [] batch_size) as Hlen.
  apply nil_length_inv in Hlen. unfold selected_device in *.
  by rewrite Hlen.
Qed.

Lemma compute_one_empty_list_witness :
  (_compute Stub.world 1 Stub.predictions Stub.references default_model_name
     true 2 (Stub.store Stub.sample_predictions [])).1
  = Val (RScoresAvg [] NaN) ∧
  trace (_compute Stub.world 1 Stub.predictions Stub.references default_model_name
           true 2 (Stub.store Stub.sample_predictions [])).2
  = trace (Stub.store Stub.sample_predictions []) ++
      [EvFromPretrained default_model_name; EvCudaIsAvailable;
       EvCrossEncoder default_model_name "cpu";
       EvPredict default_model_name "cpu" [] 2].
Proof.
  apply (compute_one_empty_list Stub.world 1 Stub.predictions Stub.references
           default_model_name true 2 (Stub.store Stub.sample_predictions [])
           Stub.sample_predictions []).
  - exact stub_one_score_per_pair.
  - reflexivity.
  - reflexivity.
  - reflexivity.
  - by right.
  - lia.
Defined.

(** * binary64 rounding *)

Local Open Scope Q_scope.

Lemma pow2_pos e : 0 < pow2 e.
Proof. apply Qpower_0_lt. reflexivity. Qed.

Lemma pow2_add a b : pow2 (a + b) == pow2 a * pow2 b.
Proof. apply Qpower_plus. discriminate. Qed.

Lemma pow2_le a b : (a <= b)%Z -> pow2 a <= pow2 b.
Proof. intros H. apply Qpower_le_compat_l; [exact H | discriminate]. Qed.


Lemma pow2_Z a : (0 <= a)%Z -> pow2 a == inject_Z (2 ^ a).
Proof. intros H. unfold pow2. rewrite Zpower_Qpower by exact H. reflexivity. Qed.

Lemma pow2_sub a b : pow2 (a - b) == pow2 a / pow2 b.
Proof.
  unfold Z.sub. rewrite pow2_add. unfold pow2 at 2. rewrite Qpower_opp. reflexivity.
Qed.

Lemma ilog2_spec x : 0 < x -> pow2 (ilog2 x) <= x /\ x < pow2 (ilog2 x + 1).
Proof.
  intros Hx. destruct x as [p q]. unfold ilog2. cbn [Qnum Qden].
  assert (Hp : (0 < p)%Z).
  { unfold Qlt in Hx. simpl in Hx. lia. }
  set (a := Z.log2 p). set (b := Z.log2 (Zpos q)).
  destruct (Z.log2_spec p Hp) as [Ha1 Ha2]. fold a in Ha1, Ha2.
  destruct (Z.log2_spec (Zpos q) eq_refl) as [Hb1 Hb2]. fold b in Hb1, Hb2.
  assert (Ha0 : (0 <= a)%Z) by apply Z.log2_nonneg.
  assert (Hb0 : (0 <= b)%Z) by apply Z.log2_nonneg.
  assert (Hx' : p # q == inject_Z p / inject_Z (Zpos q)) by apply Qmake_Qdiv.
  assert (Hq : 0 < inject_Z (Zpos q)) by reflexivity.
  assert (HA1 : pow2 a <= inject_Z p).
  { rewrite pow2_Z by lia. rewrite <- Zle_Qle. exact Ha1. }
  assert (HA2 : inject_Z p < pow2 (a + 1)).
  { rewrite pow2_Z by lia. rewrite <- Zlt_Qlt. exact Ha2. }
  assert (HB1 : pow2 b <= inject_Z (Zpos q)).
  { rewrite pow2_Z by lia. rewrite <- Zle_Qle. exact Hb1. }
  assert (HB2 : inject_Z (Zpos q) < pow2 (b + 1)).
  { rewrite pow2_Z by lia. rewrite <- Zlt_Qlt. exact Hb2. }
  pose proof (pow2_pos a) as Pa. pose proof (pow2_pos b) as Pb.
  pose proof (pow2_pos (a - b)) as Pk.
  assert (Hlow : pow2 (a - b - 1) < p # q).
  { rewrite Hx'. apply Qlt_shift_div_l; [exact Hq|].
    replace (a - b - 1)%Z with (a - (b + 1))%Z by lia.
    rewrite pow2_sub.
    pose proof (pow2_pos (b + 1)) as Pb1.
    apply Qlt_le_trans with (pow2 a / pow2 (b + 1) * pow2 (b + 1)).
    - apply Qmult_lt_l; [|exact HB2].
      apply Qlt_shift_div_l; [exact Pb1|]. lra.
    - setoid_replace (pow2 a / pow2 (b + 1) * pow2 (b + 1)) with (pow2 a) using relation Qeq
        by (field; lra).
      exact HA1. }
  assert (Hhigh : p # q < pow2 (a - b + 1)).
  { rewrite Hx'. apply Qlt_shift_div_r; [exact Hq|].
    replace (a - b + 1)%Z with (a + 1 - b)%Z by lia.
    rewrite pow2_sub.
    pose proof (pow2_pos (a + 1)) as Pa1.
    apply Qlt_le_trans with (pow2 (a + 1)); [exact HA2|].
    setoid_replace (pow2 (a + 1)) with (pow2 (a + 1) / pow2 b * pow2 b) using relation Qeq at 1
      by (field; lra).
    apply Qmult_le_l; [|exact HB1].
    apply Qlt_shift_div_l; [exact Pb|]. lra. }
  destruct (Qle_bool (pow2 (a - b)) (p # q)) eqn:Hcmp.
  - apply Qle_bool_iff in Hcmp. split; [exact Hcmp | exact Hhigh].
  - split; [apply Qlt_le_weak; exact Hlow|].
    replace (a - b - 1 + 1)%Z with (a - b)%Z by lia.
    apply Qnot_le_lt. intros Hle. apply Qle_bool_iff in Hle. congruence.
Qed.

Lemma rne_cases t :
  (rne t = Qfloor t /\ t - inject_Z (Qfloor t) <= 1 # 2) \/
  (rne t = (Qfloor t + 1)%Z /\ 1 # 2 <= t - inject_Z (Qfloor t)).
Proof.
  unfold rne. destruct (Qcompare (t - inject_Z (Qfloor t)) (1 # 2)) eqn:Hc.
  - apply Qeq_alt in Hc. destruct (Z.even (Qfloor t)).
    + left. split; [reflexivity | rewrite Hc; apply Qle_refl].
    + right. split; [reflexivity | rewrite Hc; apply Qle_refl].
  - apply Qlt_alt in Hc. left. split; [reflexivity | apply Qlt_le_weak; exact Hc].
  - apply Qgt_alt in Hc. right. split; [reflexivity | apply Qlt_le_weak; exact Hc].
Qed.

Lemma rne_le_Z t z : t <= inject_Z z -> (rne t <= z)%Z.
Proof.
  intros Ht. pose proof (Qfloor_le t) as Hf.
  assert (Hfz : (Qfloor t <= z)%Z).
  { rewrite Zle_Qle. lra. }
  destruct (rne_cases t) as [[-> _]|[-> Hd]]; [exact Hfz|].
  assert (Hlt : inject_Z (Qfloor t) < inject_Z z) by lra.
  rewrite <- Zlt_Qlt in Hlt. lia.
Qed.

Lemma rne_ge_Z t z : inject_Z z <= t -> (z <= rne t)%Z.
Proof.
  intros Ht. pose proof (Qlt_floor t) as Hf.
  assert (Hzf : (z <= Qfloor t)%Z).
  { assert (Hlt : inject_Z z < inject_Z (Qfloor t + 1)) by (eapply Qle_lt_trans; eauto).
    rewrite <- Zlt_Qlt in Hlt. lia. }
  destruct (rne_cases t) as [[-> _]|[-> _]]; lia.
Qed.



Lemma exq_ge_emin x : (emin <= exq x)%Z.
Proof. unfold exq. lia. Qed.

Lemma Qabs_pos_ne x : ~ x == 0 -> 0 < Qabs x.
Proof.
  intros Hx. destruct (Qlt_le_dec x 0) as [Hneg|Hge].
  - clear Hx. rewrite Qabs_neg by (apply Qlt_le_weak; exact Hneg).
    apply (Qopp_lt_compat x 0) in Hneg. exact Hneg.
  - rewrite Qabs_pos by exact Hge.
    destruct (Qle_lt_or_eq _ _ Hge) as [H|H]; [exact H|].
    exfalso. apply Hx. symmetry. exact H.
Qed.

Lemma exq_upper x : ~ x == 0 -> Qabs x < pow2 (exq x + 53).
Proof.
  intros Hx.
  destruct (ilog2_spec (Qabs x) (Qabs_pos_ne x Hx)) as [_ Hup].
  eapply Qlt_le_trans; [exact Hup|]. apply pow2_le. unfold exq. lia.
Qed.

Lemma exq_lower x : ~ x == 0 -> (emin < exq x)%Z -> pow2 (exq x + 52) <= Qabs x.
Proof.
  intros Hx He.
  destruct (ilog2_spec (Qabs x) (Qabs_pos_ne x Hx)) as [Hlo _].
  eapply Qle_trans; [|exact Hlo]. apply pow2_le. unfold exq in *. lia.
Qed.


Lemma representable_grid f x :
  representable f -> ~ x == 0 ->
  (exists z : Z, f == inject_Z z * pow2 (exq x)) \/
  ((emin < exq x)%Z /\ Qabs f < pow2 (exq x + 52)).
Proof.
  intros (M & E & HM & HE & Hf) Hx.
  destruct (Z_le_gt_dec (exq x) E) as [Hle|Hgt].
  - left. exists (M * 2 ^ (E - exq x))%Z.
    rewrite Hf, inject_Z_mult, <- pow2_Z by lia.
    rewrite <- Qmult_assoc, <- pow2_add.
    replace (E - exq x + exq x)%Z with E by lia. reflexivity.
  - right. split; [lia|].
    rewrite Hf, Qabs_Qmult.
    rewrite (Qabs_pos (pow2 E)) by (apply Qlt_le_weak, pow2_pos).
    assert (HM' : Qabs (inject_Z M) < pow2 53).
    { rewrite pow2_Z by lia.
      change (Qabs (inject_Z M)) with (inject_Z (Z.abs M)).
      rewrite <- Zlt_Qlt. exact HM. }
    apply Qlt_le_trans with (pow2 53 * pow2 E).
    + apply Qmult_lt_r; [apply pow2_pos | exact HM'].
    + rewrite <- pow2_add. apply pow2_le. lia.
Qed.

Lemma rndq_zero x : x == 0 -> rndq x = 0.
Proof. intros H. unfold rndq. apply Qeq_bool_iff in H. rewrite H. reflexivity. Qed.

Lemma rndq_nonzero x :
  ~ x == 0 -> rndq x = inject_Z (rne (x / pow2 (exq x))) * pow2 (exq x).
Proof.
  intros H. unfold rndq. destruct (Qeq_bool x 0) eqn:E; [|reflexivity].
  apply Qeq_bool_iff in E. contradiction.
Qed.

Lemma div_pow2_le x y e : x <= y * pow2 e -> x / pow2 e <= y.
Proof. intros H. apply Qle_shift_div_r; [apply pow2_pos | exact H]. Qed.

Lemma le_div_pow2 x y e : y * pow2 e <= x -> y <= x / pow2 e.
Proof. intros H. apply Qle_shift_div_l; [apply pow2_pos | exact H]. Qed.

(** Rounding never moves a number across a representable one. *)
Lemma rndq_le_repr x f : representable f -> x <= f -> rndq x <= f.
Proof.
  intros Hf Hxf. destruct (Qeq_dec x 0) as [H0|H0].
  { rewrite rndq_zero by exact H0. rewrite <- H0. exact Hxf. }
  rewrite rndq_nonzero by exact H0.
  pose proof (pow2_pos (exq x)) as He.
  destruct (representable_grid f x Hf H0) as [[z Hz]|[Hemin Hsmall]].
  - rewrite Hz. apply Qmult_le_r; [exact He|].
    rewrite <- Zle_Qle. apply rne_le_Z. apply div_pow2_le. rewrite <- Hz. exact Hxf.
  - pose proof (exq_lower x H0 Hemin) as Hbig.
    assert (Hneg : x <= - pow2 (exq x + 52)).
    { destruct (Qlt_le_dec x 0) as [Hn|Hp].
      - rewrite Qabs_neg in Hbig by (apply Qlt_le_weak; exact Hn). lra.
      - rewrite Qabs_pos in Hbig by exact Hp.
        pose proof (Qle_Qabs f) as Hfa. lra. }
    assert (Hr : (rne (x / pow2 (exq x)) <= - 2 ^ 52)%Z).
    { apply rne_le_Z. apply div_pow2_le.
      rewrite inject_Z_opp, <- pow2_Z by lia.
      setoid_replace (- pow2 52 * pow2 (exq x)) with (- pow2 (exq x + 52)) using relation Qeq; [exact Hneg|].
      rewrite (Z.add_comm (exq x)), pow2_add. ring. }
    apply Qle_trans with (inject_Z (- 2 ^ 52) * pow2 (exq x)).
    + apply Qmult_le_r; [exact He|]. rewrite <- Zle_Qle. exact Hr.
    + rewrite inject_Z_opp, <- pow2_Z by lia.
      setoid_replace (- pow2 52 * pow2 (exq x)) with (- pow2 (exq x + 52)) using relation Qeq
        by (rewrite (Z.add_comm (exq x)), pow2_add; ring).
      pose proof (Qabs_Qle_condition f (pow2 (exq x + 52))) as Hc.
      destruct (proj1 Hc (Qlt_le_weak _ _ Hsmall)) as [Hl _]. exact Hl.
Qed.

Lemma rndq_ge_repr x f : representable f -> f <= x -> f <= rndq x.
Proof.
  intros Hf Hxf. destruct (Qeq_dec x 0) as [H0|H0].
  { rewrite rndq_zero by exact H0. rewrite <- H0. exact Hxf. }
  rewrite rndq_nonzero by exact H0.
  pose proof (pow2_pos (exq x)) as He.
  destruct (representable_grid f x Hf H0) as [[z Hz]|[Hemin Hsmall]].
  - rewrite Hz. apply Qmult_le_r; [exact He|].
    rewrite <- Zle_Qle. apply rne_ge_Z. apply le_div_pow2. rewrite <- Hz. exact Hxf.
  - pose proof (exq_lower x H0 Hemin) as Hbig.
    assert (Hpos : pow2 (exq x + 52) <= x).
    { destruct (Qlt_le_dec x 0) as [Hn|Hp].
      - rewrite Qabs_neg in Hbig by (apply Qlt_le_weak; exact Hn).
        pose proof (Qabs_Qle_condition f (pow2 (exq x + 52))) as Hc.
        destruct (proj1 Hc (Qlt_le_weak _ _ Hsmall)) as [Hl _].
        pose proof (Qle_Qabs (- f)) as Hfa. rewrite Qabs_opp in Hfa. lra.
      - rewrite Qabs_pos in Hbig by exact Hp. exact Hbig. }
    assert (Hr : (2 ^ 52 <= rne (x / pow2 (exq x)))%Z).
    { apply rne_ge_Z. apply le_div_pow2.
      rewrite <- pow2_Z by lia.
      setoid_replace (pow2 52 * pow2 (exq x)) with (pow2 (exq x + 52)) using relation Qeq; [exact Hpos|].
      rewrite (Z.add_comm (exq x)), pow2_add. ring. }
    apply Qle_trans with (inject_Z (2 ^ 52) * pow2 (exq x)).
    + rewrite <- pow2_Z by lia.
      setoid_replace (pow2 52 * pow2 (exq x)) with (pow2 (exq x + 52)) using relation Qeq
        by (rewrite (Z.add_comm (exq x)), pow2_add; ring).
      pose proof (Qle_Qabs f) as Hfa. lra.
    + apply Qmult_le_r; [exact He|]. rewrite <- Zle_Qle. exact Hr.
Qed.

Lemma rndq_repr f : representable f -> rndq f == f.
Proof.
  intros Hf. apply Qle_antisym.
  - apply rndq_le_repr; [exact Hf | apply Qle_refl].
  - apply rndq_ge_repr; [exact Hf | apply Qle_refl].
Qed.


Local Close Scope Q_scope.

(** * Sums and means of binary64 numbers *)

Local Open Scope Q_scope.

Lemma Q2Qc_this (r : Q) : this (Q2Qc r) == r.
Proof. simpl. apply Qred_correct. Qed.



(** A sum or quotient that lies between two binary64 numbers rounds to a
    finite float between them. *)
Lemma round64_between (lo hi x : Q) :
  binary64 lo → binary64 hi → lo <= x <= hi →
  ∃ q : Qc, round64 x = Fin q ∧ q == rndq x ∧ lo <= q <= hi.
Proof.
  intros [Rlo Blo] [Rhi Bhi] [Hlo Hhi].
  pose proof (rndq_ge_repr x lo Rlo Hlo) as Hr1.
  pose proof (rndq_le_repr x hi Rhi Hhi) as Hr2.
  unfold round64. cbv zeta.
  destruct (Qle_bool (pow2 1024) (Qabs (rndq x))) eqn:Hover.
  - exfalso. apply Qle_bool_iff in Hover.
    pose proof (Qle_Qabs hi) as Hh. pose proof (Qle_Qabs (- lo)) as Hl.
    rewrite Qabs_opp in Hl.
    revert Hover. apply Qlt_not_le. apply Qabs_case; intros _; lra.
  - exists (Q2Qc (rndq x)). split; [done|]. split; [apply Q2Qc_this|].
    rewrite Q2Qc_this. done.
Qed.


Lemma binary64_eq (f g : Q) : f == g → binary64 f → binary64 g.
Proof.
  intros Heq [(M & E & HM & HE & Hf) Hb]. split.
  - exists M, E. rewrite <- Heq. done.
  - by rewrite <- Heq.
Qed.





Lemma binary32_multiples (f : Q) (n : nat) :
  binary32 f → (Z.of_nat n < 2 ^ 29)%Z →
  ∀ j, (j ≤ n)%nat → binary64 (inject_Z (Z.of_nat j) * f).
Proof.
  intros (M & E & HM & HE & Hf) Hn j Hj.
  assert (HjM : (Z.abs (Z.of_nat j * M) < 2 ^ 53)%Z).
  { rewrite Z.abs_mul, (Z.abs_eq (Z.of_nat j)) by lia.
    change (2 ^ 53)%Z with (2 ^ 29 * 2 ^ 24)%Z.
    assert (Z.of_nat j < 2 ^ 29)%Z by lia.
    pose proof (Z.abs_nonneg M). nia. }
  assert (Heq : inject_Z (Z.of_nat j) * f == inject_Z (Z.of_nat j * M) * pow2 E).
  { rewrite Hf, inject_Z_mult. ring. }
  split.
  - exists (Z.of_nat j * M)%Z, E. split; [exact HjM|]. split; [unfold emin; lia|exact Heq].
  - rewrite Heq, Qabs_Qmult.
    rewrite (Qabs_pos (pow2 E)) by (apply Qlt_le_weak, pow2_pos).
    change (Qabs (inject_Z (Z.of_nat j * M))) with (inject_Z (Z.abs (Z.of_nat j * M))).
    apply Qlt_le_trans with (pow2 53 * pow2 E).
    + apply Qmult_lt_r; [apply pow2_pos|].
      rewrite pow2_Z by lia. by rewrite <- Zlt_Qlt.
    + rewrite <- pow2_add. apply pow2_le. lia.
Qed.

Lemma binary32_binary64 (f : Q) : binary32 f → binary64 f.
Proof.
  intros Hf. apply (binary64_eq (inject_Z (Z.of_nat 1) * f)).
  - change (inject_Z (Z.of_nat 1)) with 1. ring.
  - by apply (binary32_multiples f 1 Hf).
Qed.

(** ** The distance between the binary64 mean and the exact one *)








Local Close Scope Q_scope.

(** Adding zero to a binary64 number gives that number: the zero an
    accumulator starts from does not show in a sum. *)
Lemma fadd_zero_l (q : Qc) : binary64 q → fadd (Fin (Q2Qc 0)) (Fin q) = Fin q.
Proof.
  intros Hq. change (fadd (Fin (Q2Qc 0)) (Fin q)) with (round64 (Q2Qc 0 + q)%Q).
  assert (Hq' : binary64 (Q2Qc 0 + q)%Q).
  { apply (binary64_eq q); [|exact Hq]. rewrite Q2Qc_this. ring. }
  destruct (round64_between _ _ (Q2Qc 0 + q)%Q Hq' Hq') as (r & Hr & _ & H1 & H2).
  { split; apply Qle_refl. }
  rewrite Hr. f_equal. apply Qc_is_canon.
  rewrite (Qle_antisym _ _ H2 H1), Q2Qc_this. ring.
Qed.










(** * The average *)

(** C2, as stated, fails: for the scores [1.0, 0.0, 0.0] the returned average
    is the binary64 number nearest one third, and three times it is not the
    sum of the scores. *)
Lemma compute_return_average_counterexample :
  ∃ scores avg,
    (_compute Stub.world 4 Stub.predictions Stub.references default_model_name
       true 4 (Stub.store ["a"; "b"; "c"] ["a"; "x"; "y"])).1
      = Val (RScoresAvg scores (Fin avg)) ∧
    (fin_value <$> scores = [Q2Qc 1; Q2Qc 0; Q2Qc 0]) ∧
    ¬ exact_mean scores avg.
Proof.
  eexists _, _. split; [vm_compute; reflexivity|]. split.
  - vm_compute. apply (f_equal2 cons); [apply Qc_is_canon; reflexivity | reflexivity].
  - intros (_ & _ & Hmean). vm_compute in Hmean. discriminate Hmean.
Qed.



(** C10, as stated, fails: three scores all equal to the binary64 number
    nearest 0.1 have the average 0.10000000000000002, above the largest
    score. *)
Lemma compute_average_between_min_and_max_counterexample :
  ∃ scores avg,
    (_compute Stub.world 4 Stub.predictions Stub.references default_model_name
       true 4 (Stub.store ["a"; "a"; "a"]
                 ["abbbbbbbbb"; "abbbbbbbbb"; "abbbbbbbbb"])).1
      = Val (RScoresAvg scores (Fin avg)) ∧
    scores ≠ [] ∧
    Forall (λ x, x = round64 (1 # 10)) scores ∧
    (list_max (fin_value <$> scores) < avg)%Qc.
Proof.
  eexists _, _. split; [vm_compute; reflexivity|]. split; [done|]. split.
  - repeat constructor.
  - vm_compute. reflexivity.
Qed.






